(** * Idea Library: the browser store (docs/js/db.js) and its form caller

    A shallow embedding of [IdeaDatabase] (the sql.js wrapper that keeps the
    [ideas] table in memory and writes its image, base64 encoded, to one
    localStorage item after every mutation) and of the parts of [IdeaApp]
    that feed it ([handleFormSubmit], [addTag]).

    Conventions of the model
    - a JS string is the list of its UTF-16 code units ([jsstring]);
    - a [Uint8Array] is a [list byte];
    - the [ideas] table is the list of its rows in rowid order (an INSERT
      appends); a cell is NULL or a text, and a text read back from the
      engine is the text that was bound;
    - [ORDER BY updated_at DESC] lists rows of equal [updated_at] in rowid
      order, as the scan of [idx_updated_at] does;
    - the object given to [updateIdea] has columns of the table as keys;
      a value is null or a string, or an array of strings under [tags];
    - the clock ([new Date().toISOString()]) and the random source
      ([Math.random]) are read by the caller and passed in;
    - a method that can throw returns an [outcome];
    - sql.js's file image ([db.export()], [new SQL.Database(bytes)]) and
      the quota of localStorage are parameters of the store. *)

From Stdlib Require Import String Ascii.
From Stdlib.Strings Require Import Byte.
From Stdlib Require Import NArith ZArith PeanoNat Lia Bool List Permutation Sorted.
Import ListNotations.

(* ------------------------------------------------------------------ *)
(** ** JS strings *)

Module JS.

Definition jsstring := list N.

(** A literal: the code units of an ASCII/Latin-1 text. *)
Definition str (s : string) : jsstring :=
  map N_of_ascii (list_ascii_of_string s).

Fixpoint eqb (a b : jsstring) : bool :=
  match a, b with
  | [], [] => true
  | x :: a', y :: b' => N.eqb x y && eqb a' b'
  | _, _ => false
  end.

(** [s] used as a condition: the empty string is falsy. *)
Definition truthy (s : jsstring) : bool :=
  match s with [] => false | _ :: _ => true end.

(** WhiteSpace and LineTerminator code units, the ones
    [String.prototype.trim] strips. *)
Definition is_white_space (c : N) : bool :=
  ((9 <=? c) && (c <=? 13) || (c =? 32) || (c =? 0xA0) || (c =? 0x1680)
   || (0x2000 <=? c) && (c <=? 0x200A) || (c =? 0x2028) || (c =? 0x2029)
   || (c =? 0x202F) || (c =? 0x205F) || (c =? 0x3000) || (c =? 0xFEFF))%N.

Fixpoint trimStart (s : jsstring) : jsstring :=
  match s with
  | c :: s' => if is_white_space c then trimStart s' else s
  | [] => []
  end.

Definition trim (s : jsstring) : jsstring :=
  rev (trimStart (rev (trimStart s))).

(** [Array.prototype.includes] on an array of strings. *)
Definition includes (l : list jsstring) (s : jsstring) : bool :=
  existsb (eqb s) l.

(** Comparison of two TEXT values (BINARY collation), code unit by code
    unit; a proper prefix sorts first. *)
Fixpoint compare (a b : jsstring) : comparison :=
  match a, b with
  | [], [] => Eq
  | [], _ :: _ => Lt
  | _ :: _, [] => Gt
  | x :: a', y :: b' =>
      match N.compare x y with
      | Eq => compare a' b'
      | c => c
      end
  end.

Definition leb (a b : jsstring) : bool :=
  match compare a b with Gt => false | _ => true end.

Definition ltb (a b : jsstring) : bool :=
  match compare a b with Lt => true | _ => false end.

(** [Number.prototype.toString(16)] on a non-negative integer. *)
Definition hex_digit (d : N) : N :=
  (if d <? 10 then 48 + d else 87 + d)%N.

Fixpoint toString16_aux (fuel : nat) (n : N) (acc : jsstring) : jsstring :=
  match fuel with
  | O => acc
  | S fuel' =>
      let acc' := hex_digit (n mod 16) :: acc in
      if (n / 16 =? 0)%N then acc' else toString16_aux fuel' (n / 16) acc'
  end.

Definition toString16 (n : N) : jsstring :=
  toString16_aux (S (N.to_nat (N.log2 n))) n [].

End JS.

Abbreviation jsstring := JS.jsstring.
Abbreviation str := JS.str.

(* ------------------------------------------------------------------ *)
(** ** JSON: [JSON.stringify] on the values the store serialises and
    [JSON.parse] on any text *)

Module JSON.

(** What [JSON.parse] can return.  A number is kept as the literal that
    denotes it. *)
#[local] Unset Elimination Schemes.
Inductive jsval :=
| JNull
| JBool (b : bool)
| JNum (literal : jsstring)
| JStr (s : jsstring)
| JArr (items : list jsval)
| JObj (members : list (jsstring * jsval)).
#[local] Set Elimination Schemes.

Definition is_high_surrogate (c : N) : bool :=
  ((0xD800 <=? c) && (c <=? 0xDBFF))%N.

Definition is_low_surrogate (c : N) : bool :=
  ((0xDC00 <=? c) && (c <=? 0xDFFF))%N.

Definition hex4 (c : N) : jsstring :=
  [JS.hex_digit (c / 4096 mod 16); JS.hex_digit (c / 256 mod 16);
   JS.hex_digit (c / 16 mod 16); JS.hex_digit (c mod 16)]%N.

(** [\uXXXX] *)
Definition unicode_escape (c : N) : jsstring := 92%N :: 117%N :: hex4 c.

(** QuoteJSONString on one code unit that is not half of a surrogate
    pair. *)
Definition quote_unit (c : N) : jsstring :=
  (if c =? 8 then [92; 98]
   else if c =? 9 then [92; 116]
   else if c =? 10 then [92; 110]
   else if c =? 12 then [92; 102]
   else if c =? 13 then [92; 114]
   else if c =? 34 then [92; 34]
   else if c =? 92 then [92; 92]
   else if (c <? 32) || is_high_surrogate c || is_low_surrogate c
        then unicode_escape c
   else [c])%N.

Fixpoint quote_body (s : jsstring) : jsstring :=
  match s with
  | [] => []
  | c :: rest =>
      match rest with
      | d :: rest' =>
          if is_high_surrogate c && is_low_surrogate d
          then c :: d :: quote_body rest'
          else quote_unit c ++ quote_body rest
      | [] => quote_unit c
      end
  end.

Definition quote (s : jsstring) : jsstring :=
  34%N :: quote_body s ++ [34%N].

Fixpoint join (sep : jsstring) (l : list jsstring) : jsstring :=
  match l with
  | [] => []
  | [x] => x
  | x :: l' => x ++ sep ++ join sep l'
  end.

(** [JSON.stringify] of an array of strings. *)
Definition stringify_strings (l : list jsstring) : jsstring :=
  91%N :: join [44%N] (map quote l) ++ [93%N].

(** [JSON.stringify] of a string or of [null]. *)
Definition stringify_text (v : option jsstring) : jsstring :=
  match v with
  | Some s => quote s
  | None => str "null"
  end.

(** *** The parser *)

Inductive parsed (A : Type) :=
| Ok (a : A) (rest : jsstring)
| SyntaxError
| OutOfFuel.
Arguments Ok {A} a rest.
Arguments SyntaxError {A}.
Arguments OutOfFuel {A}.

Definition pbind {A B} (p : parsed A) (k : A -> jsstring -> parsed B)
  : parsed B :=
  match p with
  | Ok a rest => k a rest
  | SyntaxError => SyntaxError
  | OutOfFuel => OutOfFuel
  end.

Definition of_option {A} (o : option (A * jsstring)) : parsed A :=
  match o with
  | Some (a, rest) => Ok a rest
  | None => SyntaxError
  end.

Definition is_json_ws (c : N) : bool :=
  ((c =? 9) || (c =? 10) || (c =? 13) || (c =? 32))%N.

Fixpoint skip_ws (s : jsstring) : jsstring :=
  match s with
  | c :: s' => if is_json_ws c then skip_ws s' else s
  | [] => []
  end.

Definition is_digit (c : N) : bool := ((48 <=? c) && (c <=? 57))%N.

Definition hex_value (c : N) : option N :=
  (if is_digit c then Some (c - 48)
   else if (97 <=? c) && (c <=? 102) then Some (c - 87)
   else if (65 <=? c) && (c <=? 70) then Some (c - 55)
   else None)%N.

Definition simple_escape (e : N) : option N :=
  (if e =? 34 then Some 34
   else if e =? 92 then Some 92
   else if e =? 47 then Some 47
   else if e =? 98 then Some 8
   else if e =? 102 then Some 12
   else if e =? 110 then Some 10
   else if e =? 114 then Some 13
   else if e =? 116 then Some 9
   else None)%N.

Definition cons_chars (c : N) (o : option (jsstring * jsstring))
  : option (jsstring * jsstring) :=
  match o with
  | Some (s, rest) => Some (c :: s, rest)
  | None => None
  end.

(** The characters of a string literal, after its opening quote, up to
    and including the closing quote. *)
Fixpoint parse_chars (s : jsstring) : option (jsstring * jsstring) :=
  match s with
  | [] => None
  | c :: rest =>
      if (c =? 34)%N then Some ([], rest)
      else if (c =? 92)%N then
        match rest with
        | [] => None
        | e :: rest1 =>
            if (e =? 117)%N then
              match rest1 with
              | h1 :: h2 :: h3 :: h4 :: rest2 =>
                  match hex_value h1, hex_value h2, hex_value h3,
                        hex_value h4 with
                  | Some a, Some b, Some c', Some d =>
                      cons_chars (a * 4096 + b * 256 + c' * 16 + d)%N
                                 (parse_chars rest2)
                  | _, _, _, _ => None
                  end
              | _ => None
              end
            else
              match simple_escape e with
              | Some u => cons_chars u (parse_chars rest1)
              | None => None
              end
        end
      else if (c <? 32)%N then None
      else cons_chars c (parse_chars rest)
  end.

Fixpoint span_digits (s : jsstring) : jsstring * jsstring :=
  match s with
  | c :: s' =>
      if is_digit c
      then let (ds, rest) := span_digits s' in (c :: ds, rest)
      else ([], s)
  | [] => ([], [])
  end.

Definition parse_exponent (lit s : jsstring) : option (jsstring * jsstring) :=
  match s with
  | c :: s1 =>
      if ((c =? 101) || (c =? 69))%N then
        let (sign, s2) :=
          match s1 with
          | g :: s2 => if ((g =? 43) || (g =? 45))%N then ([g], s2)
                       else ([], s1)
          | [] => ([], [])
          end in
        match span_digits s2 with
        | ([], _) => None
        | (ds, rest) => Some (lit ++ c :: sign ++ ds, rest)
        end
      else Some (lit, s)
  | [] => Some (lit, [])
  end.

Definition parse_fraction (lit s : jsstring) : option (jsstring * jsstring) :=
  match s with
  | c :: s1 =>
      if (c =? 46)%N then
        match span_digits s1 with
        | ([], _) => None
        | (ds, rest) => parse_exponent (lit ++ c :: ds) rest
        end
      else parse_exponent lit s
  | [] => Some (lit, [])
  end.

Definition parse_integer (lit s : jsstring) : option (jsstring * jsstring) :=
  match s with
  | c :: s1 =>
      if (c =? 48)%N then parse_fraction (lit ++ [c]) s1
      else if is_digit c then
        let (ds, rest) := span_digits s1 in
        parse_fraction (lit ++ c :: ds) rest
      else None
  | [] => None
  end.

Definition parse_number (s : jsstring) : option (jsstring * jsstring) :=
  match s with
  | c :: s1 => if (c =? 45)%N then parse_integer [c] s1
               else parse_integer [] s
  | [] => None
  end.

Fixpoint strip_prefix (p s : jsstring) : option jsstring :=
  match p, s with
  | [], _ => Some s
  | x :: p', y :: s' => if (x =? y)%N then strip_prefix p' s' else None
  | _ :: _, [] => None
  end.

Definition parse_keyword (k : string) (v : jsval) (s : jsstring)
  : parsed jsval :=
  match strip_prefix (str k) s with
  | Some rest => Ok v rest
  | None => SyntaxError
  end.

Fixpoint parse_value (fuel : nat) (s : jsstring) : parsed jsval :=
  match fuel with
  | O => OutOfFuel
  | S fuel' =>
      match skip_ws s with
      | [] => SyntaxError
      | c :: rest =>
          if (c =? 123)%N then
            match skip_ws rest with
            | [] => SyntaxError
            | c' :: rest' =>
                if (c' =? 125)%N then Ok (JObj []) rest'
                else pbind (parse_members fuel' (c' :: rest'))
                           (fun ms r => Ok (JObj ms) r)
            end
          else if (c =? 91)%N then
            match skip_ws rest with
            | [] => SyntaxError
            | c' :: rest' =>
                if (c' =? 93)%N then Ok (JArr []) rest'
                else pbind (parse_elements fuel' (c' :: rest'))
                           (fun vs r => Ok (JArr vs) r)
            end
          else if (c =? 34)%N then
            pbind (of_option (parse_chars rest)) (fun t r => Ok (JStr t) r)
          else if (c =? 110)%N then parse_keyword "null" JNull (c :: rest)
          else if (c =? 116)%N then
            parse_keyword "true" (JBool true) (c :: rest)
          else if (c =? 102)%N then
            parse_keyword "false" (JBool false) (c :: rest)
          else
            pbind (of_option (parse_number (c :: rest)))
                  (fun lit r => Ok (JNum lit) r)
      end
  end

with parse_elements (fuel : nat) (s : jsstring) : parsed (list jsval) :=
  match fuel with
  | O => OutOfFuel
  | S fuel' =>
      pbind (parse_value fuel' s) (fun v r =>
        match skip_ws r with
        | [] => SyntaxError
        | c :: r' =>
            if (c =? 44)%N then
              pbind (parse_elements fuel' r') (fun vs r'' => Ok (v :: vs) r'')
            else if (c =? 93)%N then Ok [v] r'
            else SyntaxError
        end)
  end

with parse_members (fuel : nat) (s : jsstring)
  : parsed (list (jsstring * jsval)) :=
  match fuel with
  | O => OutOfFuel
  | S fuel' =>
      match skip_ws s with
      | [] => SyntaxError
      | q :: r0 =>
          if (q =? 34)%N then
            pbind (of_option (parse_chars r0)) (fun k r1 =>
              match skip_ws r1 with
              | [] => SyntaxError
              | c1 :: r2 =>
                  if (c1 =? 58)%N then
                    pbind (parse_value fuel' r2) (fun v r3 =>
                      match skip_ws r3 with
                      | [] => SyntaxError
                      | c3 :: r4 =>
                          if (c3 =? 44)%N then
                            pbind (parse_members fuel' r4)
                                  (fun ms r5 => Ok ((k, v) :: ms) r5)
                          else if (c3 =? 125)%N then Ok [(k, v)] r4
                          else SyntaxError
                      end)
                  else SyntaxError
              end)
          else SyntaxError
      end
  end.

(** [JSON.parse]: [None] is the thrown SyntaxError. *)
Definition parse (s : jsstring) : option jsval :=
  match parse_value (2 * length s + 2) s with
  | Ok v rest =>
      match skip_ws rest with
      | [] => Some v
      | _ :: _ => None
      end
  | _ => None
  end.

End JSON.

Import JSON(jsval, JNull, JBool, JNum, JStr, JArr, JObj).


(* ------------------------------------------------------------------ *)
(** ** [btoa] / [atob] and the two conversion loops of db.js *)

Module Base64.

Definition alphabet_char (n : N) : N :=
  (if n <? 26 then 65 + n
   else if n <? 52 then 97 + (n - 26)
   else if n <? 62 then 48 + (n - 52)
   else if n =? 62 then 43
   else 47)%N.

Definition alphabet_index (c : N) : option N :=
  (if (65 <=? c) && (c <=? 90) then Some (c - 65)
   else if (97 <=? c) && (c <=? 122) then Some (c - 97 + 26)
   else if (48 <=? c) && (c <=? 57) then Some (c - 48 + 52)
   else if c =? 43 then Some 62
   else if c =? 47 then Some 63
   else None)%N.

Fixpoint encode (s : jsstring) : jsstring :=
  match s with
  | a :: b :: c :: rest =>
      (alphabet_char (a / 4) :: alphabet_char (a mod 4 * 16 + b / 16)
       :: alphabet_char (b mod 16 * 4 + c / 64) :: alphabet_char (c mod 64)
       :: encode rest)%N
  | [a; b] =>
      [alphabet_char (a / 4); alphabet_char (a mod 4 * 16 + b / 16);
       alphabet_char (b mod 16 * 4); 61]%N
  | [a] => [alphabet_char (a / 4); alphabet_char (a mod 4 * 16); 61; 61]%N
  | [] => []
  end.

(** [btoa]: [None] is the InvalidCharacterError thrown for a code unit
    above 255. *)
Definition btoa (s : jsstring) : option jsstring :=
  if forallb (fun c => c <? 256)%N s then Some (encode s) else None.

Definition is_ascii_ws (c : N) : bool :=
  ((c =? 9) || (c =? 10) || (c =? 12) || (c =? 13) || (c =? 32))%N.

(** When the length is a multiple of four, one or two trailing [=] are
    removed. *)
Definition strip_padding (data : jsstring) : jsstring :=
  if length data mod 4 =? 0 then
    match rev data with
    | c1 :: r1 =>
        if (c1 =? 61)%N then
          match r1 with
          | c2 :: r2 => if (c2 =? 61)%N then rev r2 else rev r1
          | [] => rev r1
          end
        else data
    | [] => data
    end
  else data.

Fixpoint indices (data : jsstring) : option (list N) :=
  match data with
  | [] => Some []
  | c :: data' =>
      match alphabet_index c, indices data' with
      | Some n, Some l => Some (n :: l)
      | _, _ => None
      end
  end.

Fixpoint decode (l : list N) : jsstring :=
  match l with
  | p :: q :: r :: t :: rest =>
      (p * 4 + q / 16 :: q mod 16 * 16 + r / 4 :: r mod 4 * 64 + t
       :: decode rest)%N
  | [p; q; r] => [p * 4 + q / 16; q mod 16 * 16 + r / 4]%N
  | [p; q] => [p * 4 + q / 16]%N
  | _ => []
  end.

(** [atob] (forgiving-base64 decode): [None] is the thrown
    InvalidCharacterError. *)
Definition atob (data : jsstring) : option jsstring :=
  let data := filter (fun c => negb (is_ascii_ws c)) data in
  let data := strip_padding data in
  if length data mod 4 =? 1 then None
  else option_map decode (indices data).

End Base64.

(** [uint8ArrayToBase64]: the loop appends [String.fromCharCode] of every
    byte, then [btoa]. *)
Definition uint8ArrayToBase64 (uint8Array : list byte) : option jsstring :=
  let binary := map Byte.to_N uint8Array in
  Base64.btoa binary.

(** The store [uint8Array[i] = x] keeps [x] modulo 256. *)
Definition to_uint8 (x : N) : byte :=
  match Byte.of_N (x mod 256) with
  | Some b => b
  | None => x00
  end.

(** [base64ToUint8Array]: [atob], then [charCodeAt] of every position. *)
Definition base64ToUint8Array (base64 : jsstring) : option (list byte) :=
  match Base64.atob base64 with
  | Some binary => Some (map to_uint8 binary)
  | None => None
  end.


(* ------------------------------------------------------------------ *)
(** ** The [ideas] table and the five statements db.js runs on it *)

Module Sql.

(** The columns declared by [createSchema]. *)
Inductive Column :=
| Id | Title | Body | Stage | Tags | Essence | Insight | NextAction
| CreatedAt | UpdatedAt.

Definition column_name (c : Column) : jsstring :=
  str match c with
      | Id => "id" | Title => "title" | Body => "body" | Stage => "stage"
      | Tags => "tags" | Essence => "essence" | Insight => "insight"
      | NextAction => "next_action" | CreatedAt => "created_at"
      | UpdatedAt => "updated_at"
      end.

Definition Column_eqb (a b : Column) : bool :=
  match a, b with
  | Id, Id | Title, Title | Body, Body | Stage, Stage | Tags, Tags
  | Essence, Essence | Insight, Insight | NextAction, NextAction
  | CreatedAt, CreatedAt | UpdatedAt, UpdatedAt => true
  | _, _ => false
  end.

Definition all_columns : list Column :=
  [Id; Title; Body; Stage; Tags; Essence; Insight; NextAction; CreatedAt;
   UpdatedAt].

(** The column a name of a SET clause denotes; [None] makes [prepare]
    throw. *)
Definition column_of_name (name : jsstring) : option Column :=
  find (fun c => JS.eqb name (column_name c)) all_columns.

(** A cell is NULL or a text. *)
Definition cell := option jsstring.

(** One row.  [id TEXT PRIMARY KEY] admits NULL; the five NOT NULL
    columns do not. *)
Record Row := {
  id : cell;
  title : jsstring;
  body : jsstring;
  stage : jsstring;
  tags : cell;
  essence : cell;
  insight : cell;
  next_action : cell;
  created_at : jsstring;
  updated_at : jsstring
}.

(** The table in rowid order.  [tags_last] records that the table was
    created without the [tags] column and got it from
    [ALTER TABLE ... ADD COLUMN], which puts it after [updated_at]. *)
Record Database := {
  tags_last : bool;
  rows : list Row
}.

Definition with_rows (d : Database) (l : list Row) : Database :=
  {| tags_last := tags_last d; rows := l |}.

Definition has_id (target : jsstring) (r : Row) : bool :=
  match id r with
  | Some i => JS.eqb i target
  | None => false
  end.

(** PRIMARY KEY: no two rows carry the same non-NULL id. *)
Fixpoint unique_ids (l : list Row) : bool :=
  match l with
  | [] => true
  | r :: l' =>
      match id r with
      | Some i => negb (existsb (has_id i) l')
      | None => true
      end && unique_ids l'
  end.

(** [INSERT INTO ideas (...) VALUES (...)]: [None] is the constraint
    failure thrown by [step]. *)
Definition insert (r : Row) (d : Database) : option Database :=
  match id r with
  | Some i =>
      if existsb (has_id i) (rows d) then None
      else Some (with_rows d (rows d ++ [r]))
  | None => Some (with_rows d (rows d ++ [r]))
  end.

(** A row while its SET clause is applied: every column may hold NULL. *)
Definition raw_row := Column -> cell.

Definition raw_of (r : Row) : raw_row :=
  fun c =>
    match c with
    | Id => id r
    | Title => Some (title r)
    | Body => Some (body r)
    | Stage => Some (stage r)
    | Tags => tags r
    | Essence => essence r
    | Insight => insight r
    | NextAction => next_action r
    | CreatedAt => Some (created_at r)
    | UpdatedAt => Some (updated_at r)
    end.

(** Assignments are applied left to right, so of two assignments to one
    column the rightmost is the one that counts. *)
Definition assign (raw : raw_row) (a : Column * cell) : raw_row :=
  fun c => if Column_eqb (fst a) c then snd a else raw c.

Definition stage_ok (s : jsstring) : bool :=
  JS.includes [str "captured"; str "distilled"; str "expressed";
               str "actioned"] s.

(** NOT NULL and CHECK(stage IN ...) on the row to be written. *)
Definition check (raw : raw_row) : option Row :=
  match raw Title, raw Body, raw Stage, raw CreatedAt, raw UpdatedAt with
  | Some t, Some b, Some s, Some ca, Some ua =>
      if stage_ok s then
        Some {| id := raw Id; title := t; body := b; stage := s;
                tags := raw Tags; essence := raw Essence;
                insight := raw Insight; next_action := raw NextAction;
                created_at := ca; updated_at := ua |}
      else None
  | _, _, _, _, _ => None
  end.

Fixpoint update_rows (set : list (Column * cell)) (target : jsstring)
         (l : list Row) : option (list Row) :=
  match l with
  | [] => Some []
  | r :: l' =>
      match (if has_id target r then check (fold_left assign set (raw_of r))
             else Some r),
            update_rows set target l' with
      | Some r', Some l'' => Some (r' :: l'')
      | _, _ => None
      end
  end.

(** [UPDATE ideas SET ... WHERE id = ?]: [None] is the constraint failure
    thrown by [step]; the statement then changes nothing.  The PRIMARY KEY
    is checked when the statement writes the id of some row. *)
Definition update (set : list (Column * cell)) (target : jsstring)
           (d : Database) : option Database :=
  match update_rows set target (rows d) with
  | Some l =>
      if existsb (fun a => Column_eqb (fst a) Id) set
         && existsb (has_id target) (rows d)
         && negb (unique_ids l)
      then None
      else Some (with_rows d l)
  | None => None
  end.

(** [DELETE FROM ideas WHERE id = ?] *)
Definition delete (target : jsstring) (d : Database) : Database :=
  with_rows d (filter (fun r => negb (has_id target r)) (rows d)).

(** [SELECT * FROM ideas WHERE id = ?], first [step]. *)
Definition select_by_id (target : jsstring) (d : Database) : option Row :=
  find (has_id target) (rows d).

(** [ORDER BY updated_at DESC]: rows come out by decreasing [updated_at];
    rows with the same [updated_at] come out in rowid order. *)
Fixpoint insert_desc (r : Row) (l : list Row) : list Row :=
  match l with
  | [] => [r]
  | x :: l' =>
      if JS.leb (updated_at x) (updated_at r) then r :: x :: l'
      else x :: insert_desc r l'
  end.

Definition order_by_updated_at_desc (l : list Row) : list Row :=
  fold_right insert_desc [] l.

Definition select_all (d : Database) : list Row :=
  order_by_updated_at_desc (rows d).

(** The columns in the order [SELECT *] lists them. *)
Definition columns (d : Database) : list Column :=
  if tags_last d
  then [Id; Title; Body; Stage; Essence; Insight; NextAction; CreatedAt;
        UpdatedAt; Tags]
  else all_columns.

(** [stmt.getAsObject()] : column name and cell, in column order. *)
Definition getAsObject (d : Database) (r : Row) : list (jsstring * cell) :=
  map (fun c => (column_name c, raw_of r c)) (columns d).

(** [a] may be listed before [b]: [b] was not updated after [a]. *)
Definition not_older (a b : Row) : Prop :=
  JS.leb (updated_at b) (updated_at a) = true.

Definition updated_at_is (t : jsstring) (r : Row) : bool :=
  JS.eqb (updated_at r) t.

End Sql.

Import Sql(Column, Row, Database, cell).

(* ------------------------------------------------------------------ *)
(** ** [IdeaDatabase] *)

Inductive exn :=
| SqlError               (* thrown by prepare, bind or step *)
| QuotaExceededError     (* thrown by localStorage.setItem *)
| InvalidCharacterError. (* thrown by btoa or atob *)

Inductive outcome (A : Type) :=
| Returns (a : A)
| Throws (e : exn).
Arguments Returns {A} a.
Arguments Throws {A} e.

(** What the page holds: the in-memory database, the localStorage item
    [idea-library.db], and how many times [setItem] has been called. *)
Record World := {
  db : Database;
  localStorage : option jsstring;
  setItem_calls : nat
}.

Definition M (A : Type) : Type := World -> outcome A * World.

Definition ret {A} (a : A) : M A := fun w => (Returns a, w).

Definition throw {A} (e : exn) : M A := fun w => (Throws e, w).

Definition bind {A B} (m : M A) (k : A -> M B) : M B :=
  fun w =>
    match m w with
    | (Returns a, w') => k a w'
    | (Throws e, w') => (Throws e, w')
    end.

Notation "x <- m ;; k" := (bind m (fun x => k))
  (at level 61, m at next level, right associativity).
Notation "m ;;; k" := (bind m (fun _ => k))
  (at level 61, right associativity).

(** A JS object: its own properties in insertion order. *)
Definition jsobject := list (jsstring * jsval).

Fixpoint get_prop {V} (key : jsstring) (o : list (jsstring * V)) : option V :=
  match o with
  | [] => None
  | (k, v) :: o' => if JS.eqb k key then Some v else get_prop key o'
  end.

(** [o[key] = v]: an existing property keeps its place, a new one goes
    last. *)
Fixpoint set_prop {V} (key : jsstring) (v : V) (o : list (jsstring * V))
  : list (jsstring * V) :=
  match o with
  | [] => [(key, v)]
  | (k, x) :: o' =>
      if JS.eqb k key then (k, v) :: o' else (k, x) :: set_prop key v o'
  end.

Definition js_of_cell (c : cell) : jsval :=
  match c with
  | Some s => JStr s
  | None => JNull
  end.

(** The block shared by [getAllIdeas] and [getIdea]:
    [if (row.tags) { try { row.tags = JSON.parse(row.tags) }
                     catch (e) { row.tags = [] } }
     else { row.tags = [] }].
    [tags_value] is what ends up in [row.tags], given what [row.tags]
    held: nothing (undefined), null, or a text. *)
Definition tags_value (field : option cell) : jsval :=
  match field with
  | Some (Some text) =>
      if JS.truthy text then
        match JSON.parse text with
        | Some v => v
        | None => JArr []
        end
      else JArr []
  | Some None => JArr []
  | None => JArr []
  end.

Definition parse_tags (row : list (jsstring * cell)) : jsobject :=
  set_prop (str "tags") (tags_value (get_prop (str "tags") row))
           (map (fun kv => (fst kv, js_of_cell (snd kv))) row).

(** An element of [Object.entries(updates)]: a column set to null or to a
    string, or [tags] set to an array of strings. *)
Inductive entry :=
| Field (c : Column) (value : cell)
| TagList (value : list jsstring).

Definition entry_key (e : entry) : jsstring :=
  match e with
  | Field c _ => Sql.column_name c
  | TagList _ => str "tags"
  end.

(** [key === 'tags' ? JSON.stringify(value) : value] *)
Definition finalValue (e : entry) : cell :=
  match e with
  | Field c value =>
      if JS.eqb (Sql.column_name c) (str "tags")
      then Some (JSON.stringify_text value)
      else value
  | TagList value => Some (JSON.stringify_strings value)
  end.

(** The guard of the loop, [key !== 'id' && key !== 'created_at']. *)
Definition passes_guard (e : entry) : bool :=
  negb (JS.eqb (entry_key e) (str "id"))
  && negb (JS.eqb (entry_key e) (str "created_at")).

(** The loop of [updateIdea] over [Object.entries(updates)], then the two
    pushes for [updated_at]: the names of the SET clause and the values
    bound to them. *)
Definition set_clause (now : jsstring) (updates : list entry)
  : list (jsstring * cell) :=
  flat_map (fun e => if passes_guard e then [(entry_key e, finalValue e)]
                     else []) updates
  ++ [(str "updated_at", Some now)].

(** [db.prepare] of the UPDATE: every name must be a column. *)
Fixpoint prepare_set (fields : list (jsstring * cell))
  : option (list (Column * cell)) :=
  match fields with
  | [] => Some []
  | (name, v) :: fields' =>
      match Sql.column_of_name name, prepare_set fields' with
      | Some c, Some l => Some ((c, v) :: l)
      | _, _ => None
      end
  end.

Definition entry_column (e : entry) : Column :=
  match e with
  | Field c _ => c
  | TagList _ => Sql.Tags
  end.

(** The SET clause as the engine reads it (see [prepare_set_clause]). *)
Definition assignments (now : jsstring) (updates : list entry)
  : list (Column * cell) :=
  map (fun e => (entry_column e, finalValue e)) (filter passes_guard updates)
  ++ [(Sql.UpdatedAt, Some now)].

(** ['xxxxxxxx-xxxx-4xxx-yxxx-xxxxxxxxxxxx'.replace(/[xy]/g, ...)]:
    [random16 k] is [Math.random() * 16 | 0] of the [k]-th replacement. *)
Fixpoint replace_xy (template : jsstring) (random16 : nat -> N) (k : nat)
  : jsstring :=
  match template with
  | [] => []
  | c :: template' =>
      let r := random16 k in
      if (c =? 120)%N then
        JS.toString16 r ++ replace_xy template' random16 (S k)
      else if (c =? 121)%N then
        JS.toString16 (N.lor (N.land r 3) 8)
        ++ replace_xy template' random16 (S k)
      else c :: replace_xy template' random16 k
  end.

Definition generateUUID (random16 : nat -> N) : jsstring :=
  replace_xy (str "xxxxxxxx-xxxx-4xxx-yxxx-xxxxxxxxxxxx") random16 0.

Definition DB_VERSION : jsval := JNum (str "1").

(** What [new SQL.Database(bytes)] turns out to hold. *)
Inductive opened :=
| Current (d : Database)       (* an [ideas] table with a [tags] column *)
| Legacy (l : list Row)        (* an [ideas] table without it *)
| NotIdeas.                    (* anything else *)

Inductive init_result :=
| Ready (w : World)            (* [init] resolved and the store works *)
| Broken                       (* [init] resolved, every statement throws *)
| InitThrows (e : exn).

Section Store.

(** The platform: how long a value localStorage accepts, and sql.js's
    image of a database ([db.export()], [new SQL.Database(bytes)]). *)
Variable quota : N.
Variable db_export : Database -> list byte.
Variable db_open : list byte -> opened.

Definition setItem (value : jsstring) : M unit :=
  fun w =>
    if (N.of_nat (length value) <=? quota)%N
    then (Returns tt, {| db := db w; localStorage := Some value;
                         setItem_calls := S (setItem_calls w) |})
    else (Throws QuotaExceededError,
          {| db := db w; localStorage := localStorage w;
             setItem_calls := S (setItem_calls w) |}).

(** [save]: export, base64, [setItem]; an error is logged and rethrown. *)
Definition save : M unit :=
  fun w =>
    let data := db_export (db w) in
    match uint8ArrayToBase64 data with
    | Some base64 => setItem base64 w
    | None => (Throws InvalidCharacterError, w)
    end.

(** What [save] hands to [setItem] for a database. *)
Definition persisted (d : Database) : jsstring :=
  Base64.encode (map Byte.to_N (db_export d)).

(** A statement that changes the table, or throws and leaves it. *)
Definition exec (stmt : Database -> option Database) : M unit :=
  fun w =>
    match stmt (db w) with
    | Some d => (Returns tt, {| db := d; localStorage := localStorage w;
                               setItem_calls := setItem_calls w |})
    | None => (Throws SqlError, w)
    end.

(** The worlds a mutation can leave: the statement ran ([with_db]), then
    [setItem] took the image ([saved]) or refused it ([refused]). *)
Definition with_db (w : World) (d : Database) : World :=
  {| db := d; localStorage := localStorage w;
     setItem_calls := setItem_calls w |}.

Definition saved (w : World) : World :=
  {| db := db w; localStorage := Some (persisted (db w));
     setItem_calls := S (setItem_calls w) |}.

Definition refused (w : World) : World :=
  {| db := db w; localStorage := localStorage w;
     setItem_calls := S (setItem_calls w) |}.

Definition fits (d : Database) : bool :=
  (N.of_nat (length (persisted d)) <=? quota)%N.

(** The row of [INSERT INTO ideas (id, title, body, stage, tags,
    created_at, updated_at) VALUES (?, ?, ?, 'captured', ?, ?, ?)]. *)
Definition inserted_row (id title body tagsJson now : jsstring) : Row :=
  {| Sql.id := Some id; Sql.title := title; Sql.body := body;
     Sql.stage := str "captured"; Sql.tags := Some tagsJson;
     Sql.essence := None; Sql.insight := None; Sql.next_action := None;
     Sql.created_at := now; Sql.updated_at := now |}.

Definition createIdea (random16 : nat -> N) (now : jsstring)
           (title body : jsstring) (tags : list jsstring) : M jsstring :=
  let id := generateUUID random16 in
  let tagsJson := JSON.stringify_strings tags in
  exec (Sql.insert (inserted_row id title body tagsJson now)) ;;;
  save ;;;
  ret id.

Definition idea_of_row (d : Database) (r : Row) : jsobject :=
  parse_tags (Sql.getAsObject d r).

Definition getAllIdeas : M (list jsobject) :=
  fun w => ret (map (idea_of_row (db w)) (Sql.select_all (db w))) w.

(** [null] when no row has the id. *)
Definition getIdea (id : jsstring) : M (option jsobject) :=
  fun w => ret (option_map (idea_of_row (db w)) (Sql.select_by_id id (db w))) w.

Definition updateIdea (now : jsstring) (id : jsstring) (updates : list entry)
  : M bool :=
  match prepare_set (set_clause now updates) with
  | Some set => exec (Sql.update set id) ;;; save ;;; ret true
  | None => throw SqlError
  end.

Definition deleteIdea (id : jsstring) : M bool :=
  exec (fun d => Some (Sql.delete id d)) ;;;
  save ;;;
  ret true.

Definition exportToJSON (now : jsstring) : M jsobject :=
  ideas <- getAllIdeas ;;
  ret [(str "schema_version", DB_VERSION);
       (str "exported_at", JStr now);
       (str "ideas", JArr (map JObj ideas))].

(** [ALTER TABLE ideas ADD COLUMN tags TEXT DEFAULT '[]']: every existing
    row gets the default. *)
Definition add_tags_column (l : list Row) : Database :=
  {| Sql.tags_last := true;
     Sql.rows := map (fun r =>
       {| Sql.id := Sql.id r; Sql.title := Sql.title r; Sql.body := Sql.body r;
          Sql.stage := Sql.stage r; Sql.tags := Some (str "[]");
          Sql.essence := Sql.essence r; Sql.insight := Sql.insight r;
          Sql.next_action := Sql.next_action r;
          Sql.created_at := Sql.created_at r;
          Sql.updated_at := Sql.updated_at r |}) l |}.

(** [runMigrations] on what was loaded.  With a [tags] column there is
    nothing to do.  Without one the column is added and the database
    saved; an error of that [save] is caught and logged.  On anything else
    the PRAGMA throws, which is caught and logged too, and the handle stays
    unusable ([None]). *)
Definition runMigrations (loaded : opened) (savedDb : option jsstring)
           (calls : nat) : option World :=
  match loaded with
  | Current d =>
      Some {| db := d; localStorage := savedDb; setItem_calls := calls |}
  | Legacy l =>
      Some (snd (save {| db := add_tags_column l; localStorage := savedDb;
                         setItem_calls := calls |}))
  | NotIdeas => None
  end.

(** What [createSchema] leaves in a new database. *)
Definition empty_database : Database :=
  {| Sql.tags_last := false; Sql.rows := [] |}.

(** The branch of [init] that finds nothing saved: a new database,
    [createSchema], [save]; an error of [save] is rethrown. *)
Definition create_new (savedDb : option jsstring) (calls : nat)
  : init_result :=
  match save {| db := empty_database; localStorage := savedDb;
                setItem_calls := calls |} with
  | (Returns _, w) => Ready w
  | (Throws e, _) => InitThrows e
  end.

(** [init], given what [localStorage.getItem(DB_NAME)] returns and the
    number of [setItem] calls so far. *)
Definition init (savedDb : option jsstring) (calls : nat) : init_result :=
  match savedDb with
  | Some s =>
      if JS.truthy s then
        match base64ToUint8Array s with
        | Some uint8Array =>
            match runMigrations (db_open uint8Array) savedDb calls with
            | Some w => Ready w
            | None => Broken
            end
        | None => InitThrows InvalidCharacterError
        end
      else create_new savedDb calls
  | None => create_new savedDb calls
  end.

(** *** The callers in app.js *)

(** The form: the three inputs and [this.currentTags]. *)
Record Form := {
  idea_id : jsstring;
  idea_title : jsstring;
  idea_body : jsstring;
  currentTags : list jsstring
}.

Inductive shown :=
| FieldErrors (title_required body_required : bool)
| Navigated (hash : jsstring)
| SaveFailed.       (* 'Failed to save idea. Please try again.' *)

Definition handleFormSubmit (random16 : nat -> N) (now : jsstring) (f : Form)
           (w : World) : shown * World :=
  let id := idea_id f in
  let title := JS.trim (idea_title f) in
  let body := JS.trim (idea_body f) in
  if negb (JS.truthy title) || negb (JS.truthy body) then
    (FieldErrors (negb (JS.truthy title)) (negb (JS.truthy body)), w)
  else if JS.truthy id then
    match updateIdea now id [Field Sql.Title (Some title);
                             Field Sql.Body (Some body);
                             TagList (currentTags f)] w with
    | (Returns _, w') => (Navigated (str "#/idea/" ++ id), w')
    | (Throws _, w') => (SaveFailed, w')
    end
  else
    match createIdea random16 now title body (currentTags f) w with
    | (Returns newId, w') => (Navigated (str "#/idea/" ++ newId), w')
    | (Throws _, w') => (SaveFailed, w')
    end.

(** [clearAll]: [DELETE FROM ideas], then [save]. *)
Definition clearAll : M unit :=
  exec (fun d => Some (Sql.with_rows d [])) ;;;
  save.

(** What [handleDelete] ends in: nothing, the hash [#/], or the alert
    'Failed to delete idea. Please try again.'. *)
Inductive delete_shown :=
| Stayed
| WentHome
| DeleteFailed.

(** [handleDelete]: [currentIdeaId] is [this.currentIdeaId] (null or a
    string), [confirmed] the answer to [confirm(...)]. *)
Definition handleDelete (currentIdeaId : option jsstring) (confirmed : bool)
           (w : World) : delete_shown * World :=
  match currentIdeaId with
  | None => (Stayed, w)
  | Some id =>
      if negb (JS.truthy id) then (Stayed, w)
      else if confirmed then
        match deleteIdea id w with
        | (Returns _, w') => (WentHome, w')
        | (Throws _, w') => (DeleteFailed, w')
        end
      else (Stayed, w)
  end.

(** *** Sequences of mutations *)

Inductive op :=
| Create (random16 : nat -> N) (now title body : jsstring)
         (tags : list jsstring)
| Update (now id : jsstring) (updates : list entry)
| Delete (id : jsstring).

(** The outcome of a mutation: what it returned is forgotten, only that
    it returned or threw is kept. *)
Definition apply (o : op) (w : World) : outcome unit * World :=
  match o with
  | Create random16 now title body tags =>
      (createIdea random16 now title body tags ;;; ret tt) w
  | Update now id updates => (updateIdea now id updates ;;; ret tt) w
  | Delete id => (deleteIdea id ;;; ret tt) w
  end.

Definition run (ops : list op) (w : World) : World :=
  fold_left (fun w o => snd (apply o w)) ops w.

End Store.

(** [addTag] of app.js, on [this.currentTags]. *)
Definition addTag (tag : jsstring) (currentTags : list jsstring)
  : list jsstring :=
  let trimmedTag := JS.trim tag in
  if negb (JS.truthy trimmedTag) then currentTags
  else if JS.includes currentTags trimmedTag then currentTags
  else currentTags ++ [trimmedTag].

(** [removeTag] of app.js. *)
Definition removeTag (tag : jsstring) (currentTags : list jsstring)
  : list jsstring :=
  filter (fun t => negb (JS.eqb t tag)) currentTags.

(** [truncate] of app.js: [text.substring(0, length) + '...'] when
    [text] is longer than [length]. *)
Definition truncate (text : jsstring) (length : nat) : jsstring :=
  if List.length text <=? length then text
  else firstn length text ++ str "...".

(** [String.prototype.split] with a separator of one code unit. *)
Fixpoint split (sep : N) (s : jsstring) : list jsstring :=
  match s with
  | [] => [[]]
  | c :: s' =>
      if (c =? sep)%N then [] :: split sep s'
      else match split sep s' with
           | h :: t => (c :: h) :: t
           | [] => [[c]]
           end
  end.

(** The view [handleRoute] goes to: [showListView()], [showFormView()],
    [showFormView(id)] or [showDetailView(id)]. *)
Inductive route :=
| ListView
| CreateForm
| EditForm (id : jsstring)
| DetailView (id : jsstring).

(** [handleRoute], given [window.location.hash]:
    [hash.slice(1) || '/'], [split('/').filter(Boolean)], and the chain of
    tests on the first two segments. *)
Definition handleRoute (location_hash : jsstring) : route :=
  let hash := match tl location_hash with
              | [] => str "/"
              | sliced => sliced
              end in
  let segments := filter JS.truthy (split 47 hash) in
  match segments with
  | [] => ListView
  | path :: rest =>
      if JS.eqb path (str "create") then CreateForm
      else match rest with
           | id :: _ =>
               if JS.eqb path (str "edit") then EditForm id
               else if JS.eqb path (str "idea") then DetailView id
               else ListView
           | [] => ListView
           end
  end.

(** *** [getAllTags]

    [Set.prototype.add] keeps the first occurrence; [Array.from] lists
    the set in insertion order; [sort()] orders strings by code units. *)
Definition Set_add (set : list jsstring) (x : jsstring) : list jsstring :=
  if JS.includes set x then set else set ++ [x].

Fixpoint insert_asc (x : jsstring) (l : list jsstring) : list jsstring :=
  match l with
  | [] => [x]
  | y :: l' =>
      if JS.leb x y then x :: y :: l' else y :: insert_asc x l'
  end.

Definition sort (l : list jsstring) : list jsstring :=
  fold_right insert_asc [] l.

(** The elements of a [tags] array when all of them are strings.  An
    array with an element of another kind ([null], a number, a nested
    array, ...) is not covered by this model of [getAllTags]: [None]. *)
Fixpoint strings_of (items : list jsval) : option (list jsstring) :=
  match items with
  | [] => Some []
  | JStr s :: items' =>
      match strings_of items' with
      | Some l => Some (s :: l)
      | None => None
      end
  | _ :: _ => None
  end.

(** [if (Array.isArray(idea.tags)) idea.tags.forEach(...)]: a [tags]
    that is not an array contributes nothing. *)
Definition tag_strings (idea : jsobject) : option (list jsstring) :=
  match get_prop (str "tags") idea with
  | Some (JArr items) => strings_of items
  | _ => Some []
  end.

Fixpoint all_tag_strings (ideas : list jsobject) : option (list jsstring) :=
  match ideas with
  | [] => Some []
  | idea :: ideas' =>
      match tag_strings idea, all_tag_strings ideas' with
      | Some l, Some l' => Some (l ++ l')
      | _, _ => None
      end
  end.

(** [getAllTags]; [None] only where [strings_of] is. *)
Definition getAllTags : M (option (list jsstring)) :=
  fun w =>
    match getAllIdeas w with
    | (Returns ideas, w') =>
        (Returns (option_map (fun l => sort (fold_left Set_add l []))
                             (all_tag_strings ideas)), w')
    | (Throws e, w') => (Throws e, w')
    end.

(** *** The shape of a generated id *)

Definition is_hex_digit (c : N) : bool :=
  ((48 <=? c) && (c <=? 57) || (97 <=? c) && (c <=? 102))%N.

(** A character of the id against the character of the template: [x] a
    hex digit, [y] one of 8, 9, a, b, anything else itself. *)
Definition uuid_char_ok (t c : N) : bool :=
  (if t =? 120 then is_hex_digit c
   else if t =? 121 then (c =? 56) || (c =? 57) || (c =? 97) || (c =? 98)
   else c =? t)%N.

Fixpoint follows_template (template s : jsstring) : bool :=
  match template, s with
  | [], [] => true
  | t :: template', c :: s' => uuid_char_ok t c && follows_template template' s'
  | _, _ => false
  end.

Definition uuid_v4_shape (s : jsstring) : bool :=
  follows_template (str "xxxxxxxx-xxxx-4xxx-yxxx-xxxxxxxxxxxx") s.

(* ------------------------------------------------------------------ *)
(** ** A stand-in for the platform

    sql.js's file image is outside this development.  [Image] is a small
    self-delimiting format with the one property the store relies on,
    that opening an exported image gives the database back; it
    instantiates [db_export] and [db_open] where a concrete platform is
    needed. *)

Module Image.

Definition decoder (A : Type) : Type := list byte -> option (A * list byte).

Fixpoint enc_nat (n : nat) : list byte :=
  match n with
  | O => [x00]
  | S n' => x01 :: enc_nat n'
  end.

Fixpoint dec_nat (l : list byte) : option (nat * list byte) :=
  match l with
  | x00 :: r => Some (0, r)
  | x01 :: r =>
      match dec_nat r with
      | Some (n, r') => Some (S n, r')
      | None => None
      end
  | _ => None
  end.

Fixpoint enc_pos (p : positive) : list byte :=
  match p with
  | xH => [x00]
  | xO p' => x01 :: enc_pos p'
  | xI p' => x02 :: enc_pos p'
  end.

Fixpoint dec_pos (l : list byte) : option (positive * list byte) :=
  match l with
  | x00 :: r => Some (xH, r)
  | x01 :: r =>
      match dec_pos r with
      | Some (p, r') => Some (xO p, r')
      | None => None
      end
  | x02 :: r =>
      match dec_pos r with
      | Some (p, r') => Some (xI p, r')
      | None => None
      end
  | _ => None
  end.

Definition enc_N (n : N) : list byte :=
  match n with
  | N0 => [x00]
  | Npos p => x01 :: enc_pos p
  end.

Definition dec_N : decoder N :=
  fun l =>
    match l with
    | x00 :: r => Some (N0, r)
    | x01 :: r =>
        match dec_pos r with
        | Some (p, r') => Some (Npos p, r')
        | None => None
        end
    | _ => None
    end.

Fixpoint dec_many {A} (dec : decoder A) (k : nat) : decoder (list A) :=
  fun l =>
    match k with
    | O => Some ([], l)
    | S k' =>
        match dec l with
        | Some (a, r) =>
            match dec_many dec k' r with
            | Some (xs, r') => Some (a :: xs, r')
            | None => None
            end
        | None => None
        end
    end.

Definition enc_list {A} (enc : A -> list byte) (xs : list A) : list byte :=
  enc_nat (length xs) ++ flat_map enc xs.

Definition dec_list {A} (dec : decoder A) : decoder (list A) :=
  fun l =>
    match dec_nat l with
    | Some (k, r) => dec_many dec k r
    | None => None
    end.

Definition enc_text : jsstring -> list byte := enc_list enc_N.
Definition dec_text : decoder jsstring := dec_list dec_N.

Definition enc_cell (c : cell) : list byte :=
  match c with
  | None => [x00]
  | Some s => x01 :: enc_text s
  end.

Definition dec_cell : decoder cell :=
  fun l =>
    match l with
    | x00 :: r => Some (None, r)
    | x01 :: r =>
        match dec_text r with
        | Some (s, r') => Some (Some s, r')
        | None => None
        end
    | _ => None
    end.

Definition enc_row (r : Row) : list byte :=
  enc_cell (Sql.id r) ++ enc_text (Sql.title r) ++ enc_text (Sql.body r)
  ++ enc_text (Sql.stage r) ++ enc_cell (Sql.tags r)
  ++ enc_cell (Sql.essence r) ++ enc_cell (Sql.insight r)
  ++ enc_cell (Sql.next_action r) ++ enc_text (Sql.created_at r)
  ++ enc_text (Sql.updated_at r).

Definition and_then {A B} (d : decoder A) (k : A -> decoder B) : decoder B :=
  fun l =>
    match d l with
    | Some (a, r) => k a r
    | None => None
    end.

Definition dec_row : decoder Row :=
  and_then dec_cell (fun i =>
  and_then dec_text (fun t =>
  and_then dec_text (fun b =>
  and_then dec_text (fun s =>
  and_then dec_cell (fun g =>
  and_then dec_cell (fun e =>
  and_then dec_cell (fun n =>
  and_then dec_cell (fun a =>
  and_then dec_text (fun c =>
  and_then dec_text (fun u => fun r =>
    Some ({| Sql.id := i; Sql.title := t; Sql.body := b; Sql.stage := s;
             Sql.tags := g; Sql.essence := e; Sql.insight := n;
             Sql.next_action := a; Sql.created_at := c;
             Sql.updated_at := u |}, r))))))))))).

Definition export (d : Database) : list byte :=
  x53 :: (if Sql.tags_last d then x01 else x00)
      :: enc_list enc_row (Sql.rows d).

Definition open (l : list byte) : opened :=
  match l with
  | x53 :: flag :: r =>
      match dec_list dec_row r with
      | Some (rows, []) =>
          match flag with
          | x00 => Current {| Sql.tags_last := false; Sql.rows := rows |}
          | x01 => Current {| Sql.tags_last := true; Sql.rows := rows |}
          | _ => NotIdeas
          end
      | _ => NotIdeas
      end
  | _ => NotIdeas
  end.

Definition quota : N := 5242880.

End Image.

(** ** Predicates used in the statements *)

(** A [tags] cell that [JSON.parse] cannot read: NULL, or a text that is
    not JSON. *)
Definition unreadable (c : cell) : Prop :=
  c = None \/ exists text, c = Some text /\ JSON.parse text = None.

(** No empty string and no duplicate. *)
Definition tags_ok (l : list jsstring) : Prop :=
  NoDup l /\ ~ In [] l.

(** Every record has an id and no two records share one. *)
Definition distinct_ids (d : Database) : Prop :=
  NoDup (map Sql.id (Sql.rows d)) /\ ~ In None (map Sql.id (Sql.rows d)).

(** ** Concrete inputs used below

    The platform is the stand-in one: [Image.export], [Image.open] and a
    quota of 5 MiB. *)

Definition browser_createIdea := createIdea Image.quota Image.export.
Definition browser_updateIdea := updateIdea Image.quota Image.export.
Definition browser_deleteIdea := deleteIdea Image.quota Image.export.
Definition browser_init := init Image.quota Image.export Image.open.
Definition browser_apply := apply Image.quota Image.export.
Definition browser_run := run Image.quota Image.export.
Definition browser_handleFormSubmit :=
  handleFormSubmit Image.quota Image.export.

(** The store after its first [init]: an empty table, saved once. *)
Definition started_world : World :=
  saved Image.export
        {| db := empty_database; localStorage := None; setItem_calls := 0 |}.

(** Random sources: the [k]-th draw is [k mod 16]; every draw is [n]. *)
Definition counting_random (k : nat) : N := (N.of_nat k mod 16)%N.
Definition constant_random (n : N) (k : nat) : N := n.

Definition nine_am : jsstring := str "2026-01-01T09:00:00.000Z".
Definition ten_am : jsstring := str "2026-01-01T10:00:00.000Z".
Definition eleven_am : jsstring := str "2026-01-01T11:00:00.000Z".
Definition noon : jsstring := str "2026-01-01T12:00:00.000Z".

(** The id [counting_random] generates. *)
Definition counting_id : jsstring := generateUUID counting_random.

(** A form whose title is three spaces. *)
Definition blank_title_form : Form :=
  {| idea_id := []; idea_title := str "   "; idea_body := str "body";
     currentTags := [] |}.

(** A table, as a saved database of another origin could hold it, whose
    rows have a NULL and a non-JSON [tags] cell. *)
Definition odd_row (id : string) (tags : cell) : Row :=
  {| Sql.id := Some (str id); Sql.title := str "t"; Sql.body := str "b";
     Sql.stage := str "captured"; Sql.tags := tags;
     Sql.essence := None; Sql.insight := None; Sql.next_action := None;
     Sql.created_at := nine_am; Sql.updated_at := nine_am |}.

Definition odd_world : World :=
  {| db := {| Sql.tags_last := false;
              Sql.rows := [odd_row "n" None;
                           odd_row "x" (Some (str "[a, b"))] |};
     localStorage := None; setItem_calls := 0 |}.

(** A, B and C created at nine, ten and eleven, then A updated at noon. *)
Definition world_A : World :=
  snd (browser_createIdea (constant_random 1) nine_am (str "A") (str "a") []
                          started_world).
Definition world_AB : World :=
  snd (browser_createIdea (constant_random 2) ten_am (str "B") (str "b") []
                          world_A).
Definition world_ABC : World :=
  snd (browser_createIdea (constant_random 3) eleven_am (str "C") (str "c") []
                          world_AB).
Definition world_ABC_updated : World :=
  snd (browser_updateIdea noon (generateUUID (constant_random 1))
                          [Field Sql.Title (Some (str "A2"))] world_ABC).

(** A create, an update of the created idea, a delete of it. *)
Definition three_ops : list op :=
  [Create counting_random nine_am (str "Title1") (str "Body1") [str "x"];
   Update ten_am counting_id [TagList [str "y"; str "x"]];
   Delete counting_id].

(* ================================================================== *)
(** * Properties *)

(** ** JS strings *)

Lemma jsstring_eqb_spec (a b : jsstring) : reflect (a = b) (JS.eqb a b).
Proof.
  revert b; induction a as [|x a IH]; intros [|y b]; simpl;
    try (constructor; congruence).
  destruct (N.eqb_spec x y) as [->|Hxy]; simpl.
  - destruct (IH b) as [->|Hab]; constructor; congruence.
  - constructor; congruence.
Qed.

Lemma jsstring_eqb_refl (a : jsstring) : JS.eqb a a = true.
Proof. destruct (jsstring_eqb_spec a a); congruence. Qed.

Lemma jsstring_eqb_eq (a b : jsstring) : JS.eqb a b = true <-> a = b.
Proof. destruct (jsstring_eqb_spec a b); split; congruence. Qed.

Lemma jsstring_eqb_neq (a b : jsstring) : JS.eqb a b = false <-> a <> b.
Proof. destruct (jsstring_eqb_spec a b); split; congruence. Qed.

Lemma includes_In (l : list jsstring) (s : jsstring) :
  JS.includes l s = true <-> In s l.
Proof.
  unfold JS.includes. rewrite existsb_exists. split.
  - intros (x & Hx & E). apply jsstring_eqb_eq in E. now subst.
  - intros H. exists s. split; [assumption | apply jsstring_eqb_refl].
Qed.

Lemma compare_refl (a : jsstring) : JS.compare a a = Eq.
Proof.
  induction a as [|x a IH]; simpl; [reflexivity|].
  now rewrite N.compare_refl.
Qed.

Lemma compare_eq (a b : jsstring) : JS.compare a b = Eq -> a = b.
Proof.
  revert b; induction a as [|x a IH]; intros [|y b]; simpl; try congruence.
  destruct (N.compare_spec x y) as [->|?|?]; try congruence.
  intros E. f_equal. now apply IH.
Qed.

Lemma compare_antisym (a b : jsstring) :
  JS.compare b a = CompOpp (JS.compare a b).
Proof.
  revert b; induction a as [|x a IH]; intros [|y b]; simpl; try reflexivity.
  rewrite (N.compare_antisym x y).
  destruct (N.compare x y); simpl; auto.
Qed.

Lemma compare_lt_trans (a b c : jsstring) :
  JS.compare a b = Lt -> JS.compare b c = Lt -> JS.compare a c = Lt.
Proof.
  revert b c; induction a as [|x a IH]; intros [|y b] [|z c]; simpl;
    try congruence.
  destruct (N.compare_spec x y) as [->|Hxy|Hxy]; try congruence.
  - destruct (N.compare_spec y z) as [->|Hyz|Hyz]; try congruence.
    intros H1 H2. now apply (IH b c).
  - intros _.
    destruct (N.compare_spec y z) as [->|Hyz|Hyz]; try congruence.
    + intros _. destruct (N.compare_spec x z); try lia; reflexivity.
    + intros _. destruct (N.compare_spec x z); try lia; reflexivity.
Qed.

(** ** JSON *)

Ltac div_lia := zify; Z.to_euclidean_division_equations; lia.

(** *** [JSON.parse] inverts [JSON.stringify] on arrays of strings *)

Lemma hex_value_digit (d : N) :
  (d < 16)%N -> JSON.hex_value (JS.hex_digit d) = Some d.
Proof.
  intros H.
  assert (E : In d [0; 1; 2; 3; 4; 5; 6; 7; 8; 9; 10; 11; 12; 13; 14; 15]%N).
  { simpl. lia. }
  simpl in E. repeat (destruct E as [<-|E]; [reflexivity|]). contradiction.
Qed.

Lemma parse_chars_unicode_escape (c : N) (rest : jsstring) :
  (c < 65536)%N ->
  JSON.parse_chars (JSON.unicode_escape c ++ rest)
  = JSON.cons_chars c (JSON.parse_chars rest).
Proof.
  intros H. unfold JSON.unicode_escape, JSON.hex4.
  cbn [app JSON.parse_chars N.eqb Pos.eqb].
  rewrite !hex_value_digit by div_lia.
  f_equal. div_lia.
Qed.

Lemma parse_chars_literal (c : N) (rest : jsstring) :
  c <> 34%N -> c <> 92%N -> (32 <= c)%N ->
  JSON.parse_chars (c :: rest) = JSON.cons_chars c (JSON.parse_chars rest).
Proof.
  intros H1 H2 H3. cbn [JSON.parse_chars].
  destruct (N.eqb_spec c 34); [contradiction|].
  destruct (N.eqb_spec c 92); [contradiction|].
  destruct (N.ltb_spec c 32); [lia|reflexivity].
Qed.

Lemma parse_chars_quote_unit (c : N) (rest : jsstring) :
  JSON.parse_chars (JSON.quote_unit c ++ rest)
  = JSON.cons_chars c (JSON.parse_chars rest).
Proof.
  unfold JSON.quote_unit.
  repeat match goal with
         | |- context [N.eqb c ?k] =>
             destruct (N.eqb_spec c k); [subst c; reflexivity|]
         end.
  destruct ((c <? 32)%N || JSON.is_high_surrogate c || JSON.is_low_surrogate c)
    eqn:E.
  - apply parse_chars_unicode_escape.
    unfold JSON.is_high_surrogate, JSON.is_low_surrogate in E.
    apply orb_true_iff in E. destruct E as [E|E].
    + apply orb_true_iff in E. destruct E as [E|E].
      * apply N.ltb_lt in E. lia.
      * apply andb_true_iff in E. destruct E as [_ E].
        apply N.leb_le in E. lia.
    + apply andb_true_iff in E. destruct E as [_ E].
      apply N.leb_le in E. lia.
  - apply orb_false_iff in E. destruct E as [E _].
    apply orb_false_iff in E. destruct E as [E _].
    apply N.ltb_ge in E.
    now apply parse_chars_literal.
Qed.

Lemma surrogate_literal (c : N) :
  JSON.is_high_surrogate c = true \/ JSON.is_low_surrogate c = true ->
  c <> 34%N /\ c <> 92%N /\ (32 <= c)%N.
Proof.
  unfold JSON.is_high_surrogate, JSON.is_low_surrogate.
  intros [E|E]; apply andb_true_iff in E; destruct E as [E _];
    apply N.leb_le in E; lia.
Qed.

Lemma quote_body_cons2 (c d : N) (s : jsstring) :
  JSON.quote_body (c :: d :: s)
  = if JSON.is_high_surrogate c && JSON.is_low_surrogate d
    then c :: d :: JSON.quote_body s
    else JSON.quote_unit c ++ JSON.quote_body (d :: s).
Proof. reflexivity. Qed.

Lemma parse_chars_quote_body (n : nat) :
  forall (s tail : jsstring), length s <= n ->
  JSON.parse_chars (JSON.quote_body s ++ 34%N :: tail) = Some (s, tail).
Proof.
  induction n as [|n IH]; intros s tail Hn.
  - destruct s; [reflexivity | simpl in Hn; lia].
  - destruct s as [|c [|d s]]; [reflexivity| |].
    + cbn [JSON.quote_body]. rewrite parse_chars_quote_unit. reflexivity.
    + rewrite quote_body_cons2.
      destruct (JSON.is_high_surrogate c && JSON.is_low_surrogate d) eqn:E.
      * apply andb_true_iff in E. destruct E as [Ec Ed].
        destruct (surrogate_literal c (or_introl Ec)) as (c1 & c2 & c3).
        destruct (surrogate_literal d (or_intror Ed)) as (d1 & d2 & d3).
        cbn [app]. rewrite parse_chars_literal by assumption.
        rewrite parse_chars_literal by assumption.
        rewrite IH by (simpl in Hn; lia). reflexivity.
      * rewrite <- app_assoc, parse_chars_quote_unit.
        rewrite IH by (simpl in *; lia). reflexivity.
Qed.

(** A quoted string is read back as the string. *)
Lemma parse_chars_quote (s tail : jsstring) :
  JSON.parse_chars (JSON.quote_body s ++ 34%N :: tail) = Some (s, tail).
Proof. now apply (parse_chars_quote_body (length s)). Qed.

Lemma parse_value_quote (fuel : nat) (s tail : jsstring) :
  JSON.parse_value (S fuel) (JSON.quote s ++ tail) = JSON.Ok (JStr s) tail.
Proof.
  unfold JSON.quote. cbn [app JSON.parse_value JSON.skip_ws JSON.is_json_ws
                          N.eqb Pos.eqb orb].
  rewrite <- app_assoc. cbn [app]. rewrite parse_chars_quote. reflexivity.
Qed.

Lemma parse_elements_S (fuel : nat) (s : jsstring) :
  JSON.parse_elements (S fuel) s
  = JSON.pbind (JSON.parse_value fuel s) (fun v r =>
      match JSON.skip_ws r with
      | [] => JSON.SyntaxError
      | c :: r' =>
          if (c =? 44)%N then
            JSON.pbind (JSON.parse_elements fuel r')
                       (fun vs r'' => JSON.Ok (v :: vs) r'')
          else if (c =? 93)%N then JSON.Ok [v] r'
          else JSON.SyntaxError
      end).
Proof. reflexivity. Qed.

Lemma parse_elements_strings (l : list jsstring) :
  forall (x tail : jsstring) (fuel : nat), length l < fuel ->
  JSON.parse_elements (S fuel)
    (JSON.join [44%N] (map JSON.quote (x :: l)) ++ 93%N :: tail)
  = JSON.Ok (map JStr (x :: l)) tail.
Proof.
  induction l as [|y l IH]; intros x tail fuel Hf.
  - destruct fuel as [|fuel]; [simpl in Hf; lia|].
    cbn [map JSON.join]. rewrite parse_elements_S.
    rewrite parse_value_quote. reflexivity.
  - destruct fuel as [|fuel]; [simpl in Hf; lia|].
    change (JSON.join [44%N] (map JSON.quote (x :: y :: l)))
      with (JSON.quote x ++ [44%N] ++ JSON.join [44%N] (map JSON.quote (y :: l))).
    rewrite <- !app_assoc.
    rewrite parse_elements_S.
    rewrite parse_value_quote.
    cbn [JSON.pbind app JSON.skip_ws JSON.is_json_ws N.eqb Pos.eqb orb].
    rewrite IH by (simpl in Hf; lia). reflexivity.
Qed.

Lemma join_quote_length (l : list jsstring) :
  length l <= length (JSON.join [44%N] (map JSON.quote l)).
Proof.
  induction l as [|x [|y l] IH]; [simpl; lia | simpl; lia |].
  change (JSON.join [44%N] (map JSON.quote (x :: y :: l)))
    with (JSON.quote x ++ [44%N] ++ JSON.join [44%N] (map JSON.quote (y :: l))).
  rewrite !length_app. simpl in *. lia.
Qed.

Lemma parse_value_array (fuel : nat) (r : jsstring) :
  JSON.parse_value (S fuel) (91%N :: 34%N :: r)
  = JSON.pbind (JSON.parse_elements fuel (34%N :: r))
               (fun vs r' => JSON.Ok (JArr vs) r').
Proof. reflexivity. Qed.

Theorem parse_stringify_strings (l : list jsstring) :
  JSON.parse (JSON.stringify_strings l) = Some (JArr (map JStr l)).
Proof.
  unfold JSON.parse, JSON.stringify_strings.
  destruct l as [|x l]; [reflexivity|].
  set (body := JSON.join [44%N] (map JSON.quote (x :: l))).
  assert (Hb : exists rest, body = 34%N :: rest).
  { subst body. unfold JSON.quote. destruct l; cbn; eauto. }
  destruct Hb as (rest & Hb).
  assert (Hlen : length (x :: l) <= length body) by apply join_quote_length.
  remember (2 * length (91%N :: body ++ [93%N]) + 2) as fuel eqn:Hfuel.
  destruct fuel as [|[|fuel]];
    [simpl in Hfuel; lia | simpl in Hfuel; lia |].
  assert (E : JSON.parse_value (S (S fuel)) (91%N :: body ++ [93%N])
              = JSON.Ok (JArr (map JStr (x :: l))) []).
  { rewrite Hb. cbn [app]. rewrite parse_value_array.
    change (34%N :: rest ++ [93%N]) with ((34%N :: rest) ++ 93%N :: []).
    rewrite <- Hb. subst body. rewrite parse_elements_strings.
    - reflexivity.
    - cbn [length] in Hfuel, Hlen. rewrite length_app in Hfuel.
      cbn [length] in Hfuel. lia. }
  rewrite E. reflexivity.
Qed.

Lemma parse_stringify_text (s : jsstring) :
  JSON.parse (JSON.stringify_text (Some s)) = Some (JStr s).
Proof.
  unfold JSON.parse, JSON.stringify_text.
  rewrite <- (app_nil_r (JSON.quote s)) at 2.
  cbn [Nat.mul Nat.add]. rewrite Nat.add_comm. cbn [Nat.add].
  rewrite parse_value_quote. reflexivity.
Qed.

(** *** The fuel of [JSON.parse] never runs out

    so [parse s = None] is a syntax error of [s], not an artefact of the
    bound on the recursion. *)

Definition consumes {A} (s : jsstring) (p : JSON.parsed A) : Prop :=
  match p with
  | JSON.Ok _ r => length r < length s
  | JSON.SyntaxError => True
  | JSON.OutOfFuel => False
  end.

Lemma consumes_pbind {A B} (s : jsstring) (p : JSON.parsed A)
      (k : A -> jsstring -> JSON.parsed B) :
  consumes s p ->
  (forall a r, length r < length s -> consumes s (k a r)) ->
  consumes s (JSON.pbind p k).
Proof. destruct p; simpl; auto. Qed.

Lemma skip_ws_length (s : jsstring) : length (JSON.skip_ws s) <= length s.
Proof.
  induction s as [|c s IH]; simpl; [lia|].
  destruct (JSON.is_json_ws c); simpl; lia.
Qed.

Lemma skip_ws_cons (s r : jsstring) (c : N) :
  JSON.skip_ws s = c :: r -> length r < length s.
Proof. intros E. pose proof (skip_ws_length s) as H. rewrite E in H. simpl in H. lia. Qed.

Lemma parse_chars_length (n : nat) :
  forall s t r, length s <= n ->
  JSON.parse_chars s = Some (t, r) -> length r < length s.
Proof.
  induction n as [|n IH]; intros s t r Hn.
  - destruct s; [discriminate | simpl in Hn; lia].
  - assert (Hc : forall u s', length s' <= n ->
               JSON.cons_chars u (JSON.parse_chars s') = Some (t, r) ->
               length r < length s').
    { intros u s' Hs'. destruct (JSON.parse_chars s') as [[t' r']|] eqn:E;
        simpl; [|discriminate].
      intros [= _ <-]. eapply IH; eauto. }
    destruct s as [|c rest]; [discriminate|]. cbn [JSON.parse_chars].
    simpl in Hn.
    destruct (c =? 34)%N; [intros [= _ <-]; simpl; lia|].
    destruct (c =? 92)%N.
    + destruct rest as [|e rest1]; [discriminate|]. simpl in Hn.
      destruct (e =? 117)%N.
      * destruct rest1 as [|h1 [|h2 [|h3 [|h4 rest2]]]]; try discriminate.
        simpl in Hn.
        destruct (JSON.hex_value h1), (JSON.hex_value h2),
          (JSON.hex_value h3), (JSON.hex_value h4); try discriminate.
        intros E. apply Hc in E; simpl; lia.
      * destruct (JSON.simple_escape e); [|discriminate].
        intros E. apply Hc in E; simpl; lia.
    + destruct (c <? 32)%N; [discriminate|].
      intros E. apply Hc in E; simpl; lia.
Qed.

Lemma span_digits_length (s : jsstring) :
  length (snd (JSON.span_digits s)) <= length s.
Proof.
  induction s as [|c s IH]; simpl; [lia|].
  destruct (JSON.is_digit c); simpl; [|lia].
  destruct (JSON.span_digits s); simpl in *. lia.
Qed.

Ltac span_digits_case t :=
  let Hd := fresh "Hd" in
  pose proof (span_digits_length t) as Hd;
  destruct (JSON.span_digits t) as [[|? ?] ?];
  [discriminate | intros [= _ <-]; simpl in *; lia].

Lemma parse_exponent_length (lit s l r : jsstring) :
  JSON.parse_exponent lit s = Some (l, r) -> length r <= length s.
Proof.
  unfold JSON.parse_exponent.
  destruct s as [|c s1]; [intros [= _ <-]; simpl; lia|].
  destruct ((c =? 101) || (c =? 69))%N; [|intros [= _ <-]; lia].
  destruct s1 as [|g s2]; [discriminate|].
  destruct ((g =? 43) || (g =? 45))%N.
  - span_digits_case s2.
  - span_digits_case (g :: s2).
Qed.

Lemma parse_fraction_length (lit s l r : jsstring) :
  JSON.parse_fraction lit s = Some (l, r) -> length r <= length s.
Proof.
  unfold JSON.parse_fraction. destruct s as [|c s1]; [intros [= _ <-]; simpl; lia|].
  destruct (c =? 46)%N; [|apply parse_exponent_length].
  pose proof (span_digits_length s1) as Hd.
  destruct (JSON.span_digits s1) as [[|d ds] rest]; [discriminate|].
  intros E. apply parse_exponent_length in E. simpl in *. lia.
Qed.

Lemma parse_integer_length (lit s l r : jsstring) :
  JSON.parse_integer lit s = Some (l, r) -> length r < length s.
Proof.
  unfold JSON.parse_integer. destruct s as [|c s1]; [discriminate|].
  destruct (c =? 48)%N.
  - intros E. apply parse_fraction_length in E. simpl. lia.
  - destruct (JSON.is_digit c); [|discriminate].
    pose proof (span_digits_length s1) as Hd.
    destruct (JSON.span_digits s1) as [ds rest].
    intros E. apply parse_fraction_length in E. simpl in *. lia.
Qed.

Lemma parse_number_length (s l r : jsstring) :
  JSON.parse_number s = Some (l, r) -> length r < length s.
Proof.
  unfold JSON.parse_number. destruct s as [|c s1]; [discriminate|].
  destruct (c =? 45)%N; intros E; apply parse_integer_length in E;
    simpl in *; lia.
Qed.

Lemma strip_prefix_length (p : jsstring) :
  forall s r, JSON.strip_prefix p s = Some r -> length r + length p = length s.
Proof.
  induction p as [|x p IH]; intros [|y s] r; simpl; try discriminate.
  - intros [= <-]. reflexivity.
  - intros [= <-]. simpl. lia.
  - destruct (x =? y)%N; [|discriminate]. intros E. apply IH in E. lia.
Qed.

Lemma parse_keyword_consumes (k : string) (v : jsval) (s : jsstring) :
  0 < length (str k) -> consumes s (JSON.parse_keyword k v s).
Proof.
  intros Hk. unfold JSON.parse_keyword.
  destruct (JSON.strip_prefix (str k) s) eqn:E; simpl; [|exact I].
  apply strip_prefix_length in E. lia.
Qed.

Lemma consumes_weaken {A} (s s' : jsstring) (p : JSON.parsed A) :
  consumes s' p -> length s' <= length s -> consumes s p.
Proof. destruct p; simpl; auto; lia. Qed.

Lemma parse_fuel_adequate (fuel : nat) :
  (forall s, 2 * length s < fuel -> consumes s (JSON.parse_value fuel s))
  /\ (forall s, 2 * length s + 1 < fuel ->
        consumes s (JSON.parse_elements fuel s))
  /\ (forall s, 2 * length s + 1 < fuel ->
        consumes s (JSON.parse_members fuel s)).
Proof.
  induction fuel as [|fuel (IHv & IHe & IHm)].
  - repeat split; intros; lia.
  - repeat split; intros s Hs.
    + cbn [JSON.parse_value].
      destruct (JSON.skip_ws s) as [|c rest] eqn:Ews; [exact I|].
      pose proof (skip_ws_cons _ _ _ Ews) as Hrest.
      destruct (c =? 123)%N.
      { destruct (JSON.skip_ws rest) as [|c' rest'] eqn:Ews'; [exact I|].
        pose proof (skip_ws_length rest) as Hr. rewrite Ews' in Hr.
        destruct (c' =? 125)%N; [simpl in *; lia|].
        apply consumes_pbind.
        - eapply consumes_weaken; [apply IHm|]; simpl in *; lia.
        - intros; simpl; assumption. }
      destruct (c =? 91)%N.
      { destruct (JSON.skip_ws rest) as [|c' rest'] eqn:Ews'; [exact I|].
        pose proof (skip_ws_length rest) as Hr. rewrite Ews' in Hr.
        destruct (c' =? 93)%N; [simpl in *; lia|].
        apply consumes_pbind.
        - eapply consumes_weaken; [apply IHe|]; simpl in *; lia.
        - intros; simpl; assumption. }
      destruct (c =? 34)%N.
      { destruct (JSON.parse_chars rest) as [[t r]|] eqn:E; simpl; [|exact I].
        apply (parse_chars_length (length rest)) in E; lia. }
      pose proof (skip_ws_length s) as Hws. rewrite Ews in Hws.
      destruct (c =? 110)%N;
        [eapply consumes_weaken; [apply parse_keyword_consumes|]; simpl; lia|].
      destruct (c =? 116)%N;
        [eapply consumes_weaken; [apply parse_keyword_consumes|]; simpl; lia|].
      destruct (c =? 102)%N;
        [eapply consumes_weaken; [apply parse_keyword_consumes|]; simpl; lia|].
      destruct (JSON.parse_number (c :: rest)) as [[l r]|] eqn:E; simpl;
        [|exact I].
      apply parse_number_length in E. lia.
    + cbn [JSON.parse_elements]. apply consumes_pbind.
      * apply IHv. lia.
      * intros v r Hr.
        destruct (JSON.skip_ws r) as [|c r'] eqn:Ews; [exact I|].
        pose proof (skip_ws_cons _ _ _ Ews) as Hr'.
        destruct (c =? 44)%N.
        { apply consumes_pbind.
          - eapply consumes_weaken; [apply IHe|]; lia.
          - intros; simpl; assumption. }
        destruct (c =? 93)%N; simpl; [lia|exact I].
    + cbn [JSON.parse_members].
      destruct (JSON.skip_ws s) as [|q r0] eqn:Ews; [exact I|].
      pose proof (skip_ws_cons _ _ _ Ews) as Hr0.
      destruct (q =? 34)%N; [|exact I].
      destruct (JSON.parse_chars r0) as [[k r1]|] eqn:E; simpl; [|exact I].
      apply (parse_chars_length (length r0)) in E; [|lia].
      destruct (JSON.skip_ws r1) as [|c1 r2] eqn:Ews1; [exact I|].
      pose proof (skip_ws_cons _ _ _ Ews1) as Hr2.
      destruct (c1 =? 58)%N; [|exact I].
      apply consumes_pbind.
      * eapply consumes_weaken; [apply IHv|]; lia.
      * intros v r3 Hr3.
        destruct (JSON.skip_ws r3) as [|c3 r4] eqn:Ews3; [exact I|].
        pose proof (skip_ws_cons _ _ _ Ews3) as Hr4.
        destruct (c3 =? 44)%N.
        { apply consumes_pbind.
          - eapply consumes_weaken; [apply IHm|]; lia.
          - intros; simpl; assumption. }
        destruct (c3 =? 125)%N; simpl; [lia|exact I].
Qed.

(** [JSON.parse] is decided by the grammar: its parser never stops for
    lack of fuel. *)
Theorem parse_never_out_of_fuel (s : jsstring) :
  JSON.parse_value (2 * length s + 2) s <> JSON.OutOfFuel.
Proof.
  destruct (parse_fuel_adequate (2 * length s + 2)) as (Hv & _).
  specialize (Hv s). intros E. rewrite E in Hv. apply Hv. lia.
Qed.

(** ** Base64 *)

(** *** [atob] inverts [btoa] *)

Lemma alphabet_index_char (n : N) :
  (n < 64)%N -> Base64.alphabet_index (Base64.alphabet_char n) = Some n.
Proof.
  intros H. rewrite <- (N2Nat.id n).
  assert (Hk : N.to_nat n < 64) by lia.
  generalize dependent (N.to_nat n). clear H. intros k Hk.
  do 64 (destruct k as [|k]; [reflexivity|]). lia.
Qed.

Lemma alphabet_char_range (n : N) :
  let c := Base64.alphabet_char n in
  (65 <= c <= 90 \/ 97 <= c <= 122 \/ 48 <= c <= 57 \/ c = 43 \/ c = 47)%N.
Proof.
  unfold Base64.alphabet_char.
  destruct (N.ltb_spec n 26); [lia|].
  destruct (N.ltb_spec n 52); [lia|].
  destruct (N.ltb_spec n 62); [lia|].
  destruct (N.eqb_spec n 62); lia.
Qed.

Lemma alphabet_char_not_ws (n : N) :
  Base64.is_ascii_ws (Base64.alphabet_char n) = false.
Proof.
  pose proof (alphabet_char_range n) as H. cbv zeta in H.
  unfold Base64.is_ascii_ws.
  repeat match goal with
         | |- context [N.eqb ?a ?b] => destruct (N.eqb_spec a b); [lia|]
         end.
  reflexivity.
Qed.

Lemma alphabet_char_not_pad (n : N) : (Base64.alphabet_char n =? 61)%N = false.
Proof.
  pose proof (alphabet_char_range n) as H. cbv zeta in H.
  apply N.eqb_neq. lia.
Qed.

Definition padding_of (pad : jsstring) (sextets : nat) : Prop :=
  (pad = [] /\ sextets mod 4 = 0)
  \/ (pad = [61%N] /\ sextets mod 4 = 3)
  \/ (pad = [61%N; 61%N] /\ sextets mod 4 = 2).

Lemma encode_shape (n : nat) :
  forall s, length s <= n -> Forall (fun c => c < 256)%N s ->
  exists sx pad,
    Base64.encode s = map Base64.alphabet_char sx ++ pad
    /\ Forall (fun x => x < 64)%N sx
    /\ Base64.decode sx = s
    /\ padding_of pad (length sx).
Proof.
  induction n as [|n IH]; intros s Hn Hs.
  - destruct s; [|simpl in Hn; lia].
    exists [], []. repeat split; auto. left. auto.
  - destruct s as [|a [|b [|c rest]]].
    + exists [], []. repeat split; auto. left. auto.
    + inversion_clear Hs as [|? ? Ha _].
      exists [a / 4; a mod 4 * 16]%N, [61; 61]%N.
      split; [reflexivity|]. split; [|split].
      * repeat constructor; div_lia.
      * cbn [Base64.decode]. f_equal. div_lia.
      * right. right. auto.
    + inversion_clear Hs as [|? ? Ha Hs']. inversion_clear Hs' as [|? ? Hb _].
      exists [a / 4; a mod 4 * 16 + b / 16; b mod 16 * 4]%N, [61]%N.
      split; [reflexivity|]. split; [|split].
      * repeat constructor; div_lia.
      * cbn [Base64.decode]. repeat f_equal; div_lia.
      * right. left. auto.
    + inversion_clear Hs as [|? ? Ha Hs']. inversion_clear Hs' as [|? ? Hb Hs''].
      inversion_clear Hs'' as [|? ? Hc Hrest].
      destruct (IH rest) as (sx & pad & E & Hsx & Hd & Hp);
        [simpl in Hn; lia | assumption |].
      exists ([a / 4; a mod 4 * 16 + b / 16; b mod 16 * 4 + c / 64; c mod 64]%N
              ++ sx), pad.
      split; [|split; [|split]].
      * cbn [Base64.encode]. rewrite E. reflexivity.
      * repeat constructor; try div_lia. assumption.
      * cbn [app Base64.decode]. rewrite Hd. repeat f_equal; div_lia.
      * unfold padding_of in *. cbn [app length].
        replace (S (S (S (S (length sx))))) with (length sx + 1 * 4) by lia.
        rewrite Nat.Div0.mod_add. assumption.
Qed.

Lemma filter_all {A} (f : A -> bool) (l : list A) :
  Forall (fun x => f x = true) l -> filter f l = l.
Proof.
  induction 1 as [|x l Hx _ IH]; simpl; [reflexivity|].
  now rewrite Hx, IH.
Qed.

Lemma indices_chars (sx : list N) :
  Forall (fun x => x < 64)%N sx ->
  Base64.indices (map Base64.alphabet_char sx) = Some sx.
Proof.
  induction 1 as [|x l Hx _ IH]; simpl; [reflexivity|].
  now rewrite alphabet_index_char, IH.
Qed.

Lemma rev_chars_head (sx : list N) :
  match rev (map Base64.alphabet_char sx) with
  | [] => sx = []
  | c :: _ => (c =? 61)%N = false
  end.
Proof.
  rewrite <- map_rev. destruct (rev sx) as [|x r] eqn:E; simpl.
  - apply (f_equal (@rev N)) in E. now rewrite rev_involutive in E.
  - apply alphabet_char_not_pad.
Qed.

Lemma strip_padding_chars (sx : list N) (pad : jsstring) :
  padding_of pad (length sx) ->
  Base64.strip_padding (map Base64.alphabet_char sx ++ pad)
  = map Base64.alphabet_char sx.
Proof.
  intros Hp. unfold Base64.strip_padding.
  pose proof (rev_chars_head sx) as Hh.
  assert (Hl : length (map Base64.alphabet_char sx ++ pad) mod 4 = 0).
  { rewrite length_app, length_map.
    rewrite <- Nat.Div0.add_mod_idemp_l.
    destruct Hp as [[-> Hm]|[[-> Hm]|[-> Hm]]]; rewrite Hm; reflexivity. }
  rewrite Hl. cbn [Nat.eqb]. rewrite rev_app_distr.
  destruct Hp as [[-> Hm]|[[-> Hm]|[-> Hm]]]; cbn [rev app N.eqb Pos.eqb].
  - rewrite app_nil_r.
    destruct (rev (map Base64.alphabet_char sx)) as [|c r]; [reflexivity|].
    now rewrite Hh.
  - destruct (rev (map Base64.alphabet_char sx)) as [|c r] eqn:E.
    + subst sx. simpl in Hm. discriminate.
    + rewrite Hh. rewrite <- E. apply rev_involutive.
  - apply rev_involutive.
Qed.

Theorem atob_encode (s : jsstring) :
  Forall (fun c => c < 256)%N s -> Base64.atob (Base64.encode s) = Some s.
Proof.
  intros Hs.
  destruct (encode_shape (length s) s (le_n _) Hs) as (sx & pad & E & Hsx & Hd & Hp).
  unfold Base64.atob. rewrite E.
  rewrite filter_all.
  - rewrite strip_padding_chars by assumption.
    rewrite length_map.
    assert (Hm : length sx mod 4 <> 1).
    { destruct Hp as [[_ Hm]|[[_ Hm]|[_ Hm]]]; rewrite Hm; discriminate. }
    destruct (Nat.eqb_spec (length sx mod 4) 1) as [Heq|_]; [contradiction|].
    rewrite indices_chars by assumption. simpl. now rewrite Hd.
  - apply Forall_app. split.
    + apply Forall_forall. intros c Hc. apply in_map_iff in Hc.
      destruct Hc as (x & <- & _). now rewrite alphabet_char_not_ws.
    + destruct Hp as [[-> _]|[[-> _]|[-> _]]]; repeat constructor.
Qed.

Lemma to_uint8_to_N (b : byte) : to_uint8 (Byte.to_N b) = b.
Proof.
  unfold to_uint8. pose proof (Byte.to_N_bounded b) as Hb.
  rewrite N.mod_small by lia. now rewrite Byte.of_to_N.
Qed.

Lemma bytes_bounded (l : list byte) :
  Forall (fun c => c < 256)%N (map Byte.to_N l).
Proof.
  apply Forall_forall. intros c Hc. apply in_map_iff in Hc.
  destruct Hc as (b & <- & _). pose proof (Byte.to_N_bounded b). lia.
Qed.

(** [uint8ArrayToBase64] never throws and [base64ToUint8Array] reads its
    result back. *)
Theorem uint8ArrayToBase64_encode (l : list byte) :
  uint8ArrayToBase64 l = Some (Base64.encode (map Byte.to_N l)).
Proof.
  unfold uint8ArrayToBase64, Base64.btoa.
  replace (forallb (fun c => (c <? 256)%N) (map Byte.to_N l)) with true;
    [reflexivity|].
  symmetry. apply forallb_forall. intros c Hc.
  pose proof (bytes_bounded l) as Hb. rewrite Forall_forall in Hb.
  apply N.ltb_lt. now apply Hb.
Qed.

Theorem base64_roundtrip (l : list byte) :
  base64ToUint8Array (Base64.encode (map Byte.to_N l)) = Some l.
Proof.
  unfold base64ToUint8Array. rewrite atob_encode by apply bytes_bounded.
  rewrite map_map. f_equal. rewrite <- (map_id l) at 2.
  apply map_ext. apply to_uint8_to_N.
Qed.

Lemma encode_nil_inv (s : jsstring) : Base64.encode s = [] -> s = [].
Proof. destruct s as [|a [|b [|c rest]]]; simpl; congruence. Qed.

(** ** The stand-in image format *)

Lemma dec_enc_nat (n : nat) (rest : list byte) :
  Image.dec_nat (Image.enc_nat n ++ rest) = Some (n, rest).
Proof. induction n as [|n IH]; simpl; [reflexivity | now rewrite IH]. Qed.

Lemma dec_enc_pos (p : positive) (rest : list byte) :
  Image.dec_pos (Image.enc_pos p ++ rest) = Some (p, rest).
Proof. induction p as [p IH|p IH|]; simpl; [now rewrite IH..|reflexivity]. Qed.

Lemma dec_enc_N (n : N) (rest : list byte) :
  Image.dec_N (Image.enc_N n ++ rest) = Some (n, rest).
Proof.
  destruct n as [|p]; simpl; [reflexivity|]. now rewrite dec_enc_pos.
Qed.

Lemma dec_enc_list {A} (enc : A -> list byte) (dec : Image.decoder A) :
  (forall a rest, dec (enc a ++ rest) = Some (a, rest)) ->
  forall xs rest, Image.dec_list dec (Image.enc_list enc xs ++ rest) = Some (xs, rest).
Proof.
  intros H xs rest. unfold Image.dec_list, Image.enc_list.
  rewrite <- app_assoc, dec_enc_nat.
  induction xs as [|x xs IH]; simpl; [reflexivity|].
  now rewrite <- app_assoc, H, IH.
Qed.

Lemma dec_enc_text (s : jsstring) (rest : list byte) :
  Image.dec_text (Image.enc_text s ++ rest) = Some (s, rest).
Proof. apply dec_enc_list. apply dec_enc_N. Qed.

Lemma dec_enc_cell (c : cell) (rest : list byte) :
  Image.dec_cell (Image.enc_cell c ++ rest) = Some (c, rest).
Proof.
  destruct c as [s|]; simpl; [|reflexivity]. now rewrite dec_enc_text.
Qed.

Lemma dec_enc_row (r : Row) (rest : list byte) :
  Image.dec_row (Image.enc_row r ++ rest) = Some (r, rest).
Proof.
  unfold Image.enc_row, Image.dec_row, Image.and_then. rewrite <- !app_assoc.
  repeat (rewrite ?dec_enc_cell, ?dec_enc_text).
  destruct r; reflexivity.
Qed.

(** Opening an exported image gives the database back. *)
Lemma image_open_export (d : Database) : Image.open (Image.export d) = Current d.
Proof.
  unfold Image.open, Image.export.
  rewrite <- (app_nil_r (Image.enc_list Image.enc_row (Sql.rows d))).
  rewrite (dec_enc_list Image.enc_row Image.dec_row dec_enc_row).
  destruct d as [[|] l]; reflexivity.
Qed.

Lemma image_export_not_empty (d : Database) : Image.export d <> [].
Proof. discriminate. Qed.

(* ------------------------------------------------------------------ *)
(** ** ORDER BY updated_at DESC *)

Lemma leb_refl (a : jsstring) : JS.leb a a = true.
Proof. unfold JS.leb. now rewrite compare_refl. Qed.

Lemma leb_total (a b : jsstring) : JS.leb a b = false -> JS.leb b a = true.
Proof.
  unfold JS.leb. rewrite (compare_antisym a b).
  destruct (JS.compare a b); simpl; congruence.
Qed.

Lemma leb_trans (a b c : jsstring) :
  JS.leb a b = true -> JS.leb b c = true -> JS.leb a c = true.
Proof.
  unfold JS.leb.
  destruct (JS.compare a b) eqn:Eab; try discriminate;
    destruct (JS.compare b c) eqn:Ebc; try discriminate; intros _ _.
  - apply compare_eq in Eab. subst. now rewrite Ebc.
  - apply compare_eq in Eab. subst. now rewrite Ebc.
  - apply compare_eq in Ebc. subst. now rewrite Eab.
  - now rewrite (compare_lt_trans a b c).
Qed.

Lemma ltb_leb_false (a b : jsstring) : JS.ltb a b = true -> JS.leb b a = false.
Proof.
  unfold JS.ltb, JS.leb. rewrite (compare_antisym a b).
  destruct (JS.compare a b); simpl; congruence.
Qed.

Lemma insert_desc_perm (r : Row) (l : list Row) :
  Permutation (Sql.insert_desc r l) (r :: l).
Proof.
  induction l as [|x l IH]; cbn [Sql.insert_desc]; [reflexivity|].
  destruct (JS.leb _ _); [reflexivity|].
  rewrite IH. apply perm_swap.
Qed.

Lemma order_perm (l : list Row) :
  Permutation (Sql.order_by_updated_at_desc l) l.
Proof.
  induction l as [|r l IH]; cbn; [reflexivity|].
  rewrite insert_desc_perm. now constructor.
Qed.

Lemma insert_desc_sorted (r : Row) (l : list Row) :
  StronglySorted Sql.not_older l ->
  StronglySorted Sql.not_older (Sql.insert_desc r l).
Proof.
  induction 1 as [|x l Hs IH Hx]; cbn [Sql.insert_desc].
  - repeat constructor.
  - destruct (JS.leb (Sql.updated_at x) (Sql.updated_at r)) eqn:E.
    + constructor; [now constructor|].
      constructor; [exact E|].
      eapply Forall_impl; [|exact Hx]. intros y Hy.
      unfold Sql.not_older in *. eapply leb_trans; eauto.
    + constructor; [exact IH|].
      eapply Permutation_Forall; [symmetry; apply insert_desc_perm|].
      constructor; [|exact Hx]. now apply leb_total.
Qed.

Lemma order_sorted (l : list Row) :
  StronglySorted Sql.not_older (Sql.order_by_updated_at_desc l).
Proof.
  induction l as [|r l IH]; cbn; [constructor|].
  now apply insert_desc_sorted.
Qed.

(** Stability: an inserted row goes in front of the rows of its own
    [updated_at]. *)
Lemma filter_insert_desc (t : jsstring) (r : Row) (l : list Row) :
  filter (Sql.updated_at_is t) (Sql.insert_desc r l)
  = filter (Sql.updated_at_is t) (r :: l).
Proof.
  induction l as [|x l IH]; cbn [Sql.insert_desc]; [reflexivity|].
  destruct (JS.leb (Sql.updated_at x) (Sql.updated_at r)) eqn:E;
    [reflexivity|].
  cbn [filter] in *. rewrite IH.
  destruct (Sql.updated_at_is t r) eqn:Er; [|reflexivity].
  destruct (Sql.updated_at_is t x) eqn:Ex; [|reflexivity].
  unfold Sql.updated_at_is in Er, Ex.
  apply jsstring_eqb_eq in Er, Ex. rewrite Er, Ex, leb_refl in E.
  discriminate.
Qed.

Lemma order_stable (t : jsstring) (l : list Row) :
  filter (Sql.updated_at_is t) (Sql.order_by_updated_at_desc l)
  = filter (Sql.updated_at_is t) l.
Proof.
  induction l as [|r l IH]; [reflexivity|].
  cbn [Sql.order_by_updated_at_desc fold_right].
  rewrite filter_insert_desc. cbn [filter].
  fold (Sql.order_by_updated_at_desc l). now rewrite IH.
Qed.

(* ------------------------------------------------------------------ *)
(** ** Objects read from the table *)

Lemma get_set_same {V} (key : jsstring) (v : V) (o : list (jsstring * V)) :
  get_prop key (set_prop key v o) = Some v.
Proof.
  induction o as [|[k x] o IH]; cbn [set_prop get_prop].
  - now rewrite jsstring_eqb_refl.
  - destruct (JS.eqb k key) eqn:E; cbn [get_prop]; now rewrite E.
Qed.

Lemma get_set_other {V} (key key' : jsstring) (v : V)
      (o : list (jsstring * V)) :
  key <> key' ->
  get_prop key' (set_prop key v o) = get_prop key' o.
Proof.
  intros Hne. induction o as [|[k x] o IH]; cbn [set_prop get_prop].
  - apply jsstring_eqb_neq in Hne. now rewrite Hne.
  - destruct (JS.eqb k key) eqn:E; cbn [get_prop]; [|now rewrite IH].
    apply jsstring_eqb_eq in E. subst k.
    apply jsstring_eqb_neq in Hne. now rewrite Hne.
Qed.

Lemma keys_set_prop {V} (key : jsstring) (v : V) (o : list (jsstring * V)) :
  get_prop key o <> None -> map fst (set_prop key v o) = map fst o.
Proof.
  induction o as [|[k x] o IH]; cbn [set_prop get_prop].
  - congruence.
  - destruct (JS.eqb k key); [reflexivity|]. intros H.
    change (k :: map fst (set_prop key v o) = k :: map fst o).
    f_equal. now apply IH.
Qed.

Lemma get_prop_map {V W} (f : V -> W) (key : jsstring)
      (o : list (jsstring * V)) :
  get_prop key (map (fun kv => (fst kv, f (snd kv))) o)
  = option_map f (get_prop key o).
Proof.
  induction o as [|[k x] o IH]; cbn [map get_prop fst snd]; [reflexivity|].
  destruct (JS.eqb k key); [reflexivity|exact IH].
Qed.

Lemma getAsObject_column (d : Database) (r : Row) (c : Column) :
  get_prop (Sql.column_name c) (Sql.getAsObject d r) = Some (Sql.raw_of r c).
Proof. destruct d as [[|] l]; destruct c; reflexivity. Qed.

Lemma getAsObject_keys (d : Database) (r : Row) :
  map fst (Sql.getAsObject d r) = map Sql.column_name (Sql.columns d).
Proof. unfold Sql.getAsObject. rewrite map_map. reflexivity. Qed.

Lemma idea_tags (d : Database) (r : Row) :
  get_prop (str "tags") (idea_of_row d r)
  = Some (tags_value (Some (Sql.tags r))).
Proof.
  unfold idea_of_row, parse_tags. rewrite get_set_same.
  change (str "tags") with (Sql.column_name Sql.Tags).
  now rewrite getAsObject_column.
Qed.

Lemma idea_column (d : Database) (r : Row) (c : Column) :
  c <> Sql.Tags ->
  get_prop (Sql.column_name c) (idea_of_row d r)
  = Some (js_of_cell (Sql.raw_of r c)).
Proof.
  intros Hc. unfold idea_of_row, parse_tags.
  rewrite get_set_other by (destruct c; (discriminate || contradiction)).
  now rewrite get_prop_map, getAsObject_column.
Qed.

Lemma idea_keys (d : Database) (r : Row) :
  map fst (idea_of_row d r) = map Sql.column_name (Sql.columns d).
Proof.
  unfold idea_of_row, parse_tags. rewrite keys_set_prop.
  - rewrite map_map. cbn [fst]. apply getAsObject_keys.
  - change (str "tags") with (Sql.column_name Sql.Tags).
    rewrite get_prop_map, getAsObject_column. discriminate.
Qed.

Lemma columns_perm (d : Database) :
  Permutation (Sql.columns d) Sql.all_columns.
Proof.
  unfold Sql.columns, Sql.all_columns. destruct (Sql.tags_last d);
    [|reflexivity].
  do 4 apply perm_skip.
  symmetry.
  exact (Permutation_cons_append
           [Sql.Essence; Sql.Insight; Sql.NextAction; Sql.CreatedAt;
            Sql.UpdatedAt] Sql.Tags).
Qed.

Lemma tags_value_unreadable (c : cell) :
  unreadable c -> tags_value (Some c) = JArr [].
Proof.
  intros [->|(text & -> & H)]; cbn [tags_value]; [reflexivity|].
  rewrite H. now destruct (JS.truthy text).
Qed.

Lemma tags_value_stringify (tags : list jsstring) :
  tags_value (Some (Some (JSON.stringify_strings tags)))
  = JArr (map JStr tags).
Proof.
  cbn [tags_value]. rewrite parse_stringify_strings. reflexivity.
Qed.

(** C10. A record whose [tags] cell is NULL or holds a text that is not
    JSON is returned by [getAllIdeas] and by [getIdea] with [tags] equal to
    the empty array, the world untouched and nothing thrown; so is a row
    object that has no [tags] property at all. *)
Theorem unreadable_tags_read_as_empty (w : World) (r : Row) (id : jsstring) :
  In r (Sql.rows (db w)) ->
  unreadable (Sql.tags r) ->
  get_prop (str "tags") (idea_of_row (db w) r) = Some (JArr [])
  /\ (exists ideas, getAllIdeas w = (Returns ideas, w)
                    /\ In (idea_of_row (db w) r) ideas)
  /\ (Sql.select_by_id id (db w) = Some r ->
      getIdea id w = (Returns (Some (idea_of_row (db w) r)), w))
  /\ (forall row : list (jsstring * cell),
        get_prop (str "tags") row = None ->
        get_prop (str "tags") (parse_tags row) = Some (JArr [])).
Proof.
  intros Hin Hun. split; [|split; [|split]].
  - rewrite idea_tags. now rewrite tags_value_unreadable.
  - eexists. split; [reflexivity|]. apply in_map.
    apply (Permutation_in r (Permutation_sym (order_perm (Sql.rows (db w))))).
    exact Hin.
  - intros Hsel. unfold getIdea, ret. now rewrite Hsel.
  - intros row Hrow. unfold parse_tags. rewrite get_set_same.
    now rewrite Hrow.
Qed.

(** C6, as the code has it.  [exportToJSON] returns an object with the
    three properties [schema_version] (the number 1), [exported_at] and
    [ideas], in that order; [ideas] is the listing of [getAllIdeas], in its
    order; every record carries one property per column of the table, ten
    in all, under the column's name and in column order ([tags] last on a
    migrated table). *)
Theorem export_has_every_column (now : jsstring) (w : World) :
  exists ideas,
    getAllIdeas w = (Returns ideas, w)
    /\ exportToJSON now w
       = (Returns [(str "schema_version", JNum (str "1"));
                   (str "exported_at", JStr now);
                   (str "ideas", JArr (map JObj ideas))], w)
    /\ Forall (fun o => map fst o = map Sql.column_name (Sql.columns (db w)))
              ideas
    /\ Permutation (Sql.columns (db w)) Sql.all_columns.
Proof.
  eexists. split; [reflexivity|]. split; [reflexivity|]. split.
  - apply Forall_forall. intros o Ho. apply in_map_iff in Ho.
    destruct Ho as (r & <- & _). apply idea_keys.
  - apply columns_perm.
Qed.

(* ------------------------------------------------------------------ *)
(** ** The store *)

Section StoreProperties.

Variable quota : N.
Variable db_export : Database -> list byte.
Variable db_open : list byte -> opened.

Local Abbreviation save' := (save quota db_export).
Local Abbreviation persisted' := (persisted db_export).
Local Abbreviation createIdea' := (createIdea quota db_export).
Local Abbreviation updateIdea' := (updateIdea quota db_export).
Local Abbreviation deleteIdea' := (deleteIdea quota db_export).
Local Abbreviation apply' := (apply quota db_export).
Local Abbreviation run' := (run quota db_export).
Local Abbreviation init' := (init quota db_export db_open).
Local Abbreviation handleFormSubmit' := (handleFormSubmit quota db_export).

Local Abbreviation saved' := (saved db_export).
Local Abbreviation fits' := (fits quota db_export).

Lemma save_spec (w : World) :
  save' w = if fits' (db w) then (Returns tt, saved' w)
            else (Throws QuotaExceededError, refused w).
Proof.
  unfold save, fits. rewrite uint8ArrayToBase64_encode.
  unfold setItem. reflexivity.
Qed.

(** Every mutation is one statement, then [save], then its return
    value. *)
Lemma mutation_spec {A} (stmt : Database -> option Database) (x : A)
      (w : World) :
  (exec stmt ;;; save' ;;; ret x) w
  = match stmt (db w) with
    | Some d =>
        if fits' d then (Returns x, saved' (with_db w d))
        else (Throws QuotaExceededError, refused (with_db w d))
    | None => (Throws SqlError, w)
    end.
Proof.
  unfold bind, exec. destruct (stmt (db w)) as [d|]; [|reflexivity].
  rewrite save_spec. cbn [db]. destruct (fits' d); reflexivity.
Qed.

Lemma createIdea_spec random16 now title body tags (w : World) :
  createIdea' random16 now title body tags w
  = match Sql.insert
            (inserted_row (generateUUID random16) title body
                          (JSON.stringify_strings tags) now) (db w) with
    | Some d =>
        if fits' d
        then (Returns (generateUUID random16), saved' (with_db w d))
        else (Throws QuotaExceededError, refused (with_db w d))
    | None => (Throws SqlError, w)
    end.
Proof. unfold createIdea. apply mutation_spec. Qed.

Lemma deleteIdea_spec id (w : World) :
  deleteIdea' id w
  = if fits' (Sql.delete id (db w))
    then (Returns true, saved' (with_db w (Sql.delete id (db w))))
    else (Throws QuotaExceededError,
          refused (with_db w (Sql.delete id (db w)))).
Proof. unfold deleteIdea. now rewrite mutation_spec. Qed.

Lemma updateIdea_spec now id updates (w : World) :
  updateIdea' now id updates w
  = match prepare_set (set_clause now updates) with
    | Some set =>
        match Sql.update set id (db w) with
        | Some d =>
            if fits' d then (Returns true, saved' (with_db w d))
            else (Throws QuotaExceededError, refused (with_db w d))
        | None => (Throws SqlError, w)
        end
    | None => (Throws SqlError, w)
    end.
Proof.
  unfold updateIdea.
  destruct (prepare_set (set_clause now updates)); [|reflexivity].
  apply mutation_spec.
Qed.

(** A mutation that returns has written the image of the database it
    leaves, with one more call of [setItem]. *)
Lemma apply_returns (o : op) (w : World) :
  fst (apply' o w) = Returns tt ->
  snd (apply' o w) = saved' (with_db w (db (snd (apply' o w)))).
Proof.
  destruct o as [random16 now title body tags|now id updates|id];
    unfold apply, bind; cbn [fst snd].
  - rewrite createIdea_spec.
    destruct (Sql.insert _ (db w)) as [d|]; [|discriminate].
    destruct (fits' d); [reflexivity|discriminate].
  - rewrite updateIdea_spec.
    destruct (prepare_set _) as [set|]; [|discriminate].
    destruct (Sql.update set id (db w)) as [d|]; [|discriminate].
    destruct (fits' d); [reflexivity|discriminate].
  - rewrite deleteIdea_spec.
    destruct (fits' _); [reflexivity|discriminate].
Qed.

Lemma encode_truthy (l : list byte) :
  l <> [] -> JS.truthy (Base64.encode (map Byte.to_N l)) = true.
Proof.
  intros H. destruct (Base64.encode (map Byte.to_N l)) eqn:E; [|reflexivity].
  apply encode_nil_inv in E. destruct l; [contradiction|discriminate].
Qed.

(** [init] on the image of a database: the load branch is taken, the
    bytes come back, and no migration runs. *)
Lemma init_persisted (d : Database) (calls : nat) :
  (forall d, db_open (db_export d) = Current d) ->
  (forall d, db_export d <> []) ->
  init' (Some (persisted' d)) calls
  = Ready {| db := d; localStorage := Some (persisted' d);
             setItem_calls := calls |}.
Proof.
  intros Hopen Hne. unfold init, persisted.
  rewrite encode_truthy by apply Hne.
  rewrite base64_roundtrip, Hopen. reflexivity.
Qed.

(** C4. Whenever create, update or delete returns, [setItem] has been
    called once more, the persisted entry is the image of the whole
    in-memory collection as the operation leaves it, and loading that entry
    gives exactly that collection.  (The image format is sql.js's: opening
    an exported image is assumed to give the database back.) *)
Theorem mutation_persists_collection (o : op) (w : World) :
  (forall d, db_open (db_export d) = Current d) ->
  (forall d, db_export d <> []) ->
  fst (apply' o w) = Returns tt ->
  let w' := snd (apply' o w) in
  uint8ArrayToBase64 (db_export (db w')) = localStorage w'
  /\ setItem_calls w' = S (setItem_calls w)
  /\ init' (localStorage w') (setItem_calls w') = Ready w'.
Proof.
  intros Hopen Hne Hret w'. subst w'.
  pose proof (apply_returns o w Hret) as E.
  set (w' := snd (apply' o w)) in *.
  rewrite E. cbn [db localStorage setItem_calls saved with_db].
  rewrite uint8ArrayToBase64_encode.
  split; [reflexivity|]. split; [reflexivity|].
  now apply init_persisted.
Qed.


(** *** [updateIdea]: what reaches the engine *)

Lemma column_of_name_name (c : Column) :
  Sql.column_of_name (Sql.column_name c) = Some c.
Proof. destruct c; reflexivity. Qed.

Lemma entry_key_column (e : entry) :
  entry_key e = Sql.column_name (entry_column e).
Proof. destruct e; reflexivity. Qed.

Lemma passes_guard_column (e : entry) :
  passes_guard e = match entry_column e with
                   | Sql.Id | Sql.CreatedAt => false
                   | _ => true
                   end.
Proof.
  unfold passes_guard. rewrite entry_key_column.
  destruct (entry_column e); reflexivity.
Qed.

(** [prepare] accepts the statement: every key is a column. *)
Lemma prepare_set_clause (now : jsstring) (updates : list entry) :
  prepare_set (set_clause now updates) = Some (assignments now updates).
Proof.
  unfold set_clause, assignments.
  induction updates as [|e updates IH].
  - reflexivity.
  - cbn [flat_map filter].
    destruct (passes_guard e); [|exact IH].
    cbn [app map prepare_set]. rewrite entry_key_column, column_of_name_name.
    cbn [app] in IH. now rewrite IH.
Qed.

Lemma assignments_spare (now : jsstring) (updates : list entry) (a : Column * cell) :
  In a (assignments now updates) ->
  fst a <> Sql.Id /\ fst a <> Sql.CreatedAt.
Proof.
  unfold assignments. rewrite in_app_iff. intros [H|[<-|[]]].
  - apply in_map_iff in H. destruct H as (e & <- & He).
    apply filter_In in He. destruct He as [_ He].
    rewrite passes_guard_column in He. cbn [fst].
    destruct (entry_column e); split; discriminate.
  - split; discriminate.
Qed.

Lemma Column_eqb_eq (a b : Column) : Sql.Column_eqb a b = true <-> a = b.
Proof. destruct a, b; split; (reflexivity || discriminate). Qed.

Lemma assignments_no_id (now : jsstring) (updates : list entry) :
  existsb (fun a => Sql.Column_eqb (fst a) Sql.Id) (assignments now updates)
  = false.
Proof.
  destruct (existsb _ _) eqn:E; [|reflexivity].
  apply existsb_exists in E. destruct E as (a & Ha & Hid).
  apply Column_eqb_eq in Hid.
  destruct (assignments_spare _ _ _ Ha) as [H _]. contradiction.
Qed.

Lemma fold_assign_other (set : list (Column * cell)) (c : Column) :
  (forall a, In a set -> fst a <> c) ->
  forall raw, fold_left Sql.assign set raw c = raw c.
Proof.
  induction set as [|a set IH]; intros H raw; [reflexivity|].
  cbn [fold_left]. rewrite IH by (intros; apply H; now right).
  unfold Sql.assign.
  destruct (Sql.Column_eqb (fst a) c) eqn:E; [|reflexivity].
  apply Column_eqb_eq in E. exfalso. apply (H a); [now left|assumption].
Qed.

Lemma check_keeps (raw : Sql.raw_row) (r' : Row) :
  Sql.check raw = Some r' ->
  Sql.id r' = raw Sql.Id
  /\ Some (Sql.created_at r') = raw Sql.CreatedAt
  /\ Some (Sql.updated_at r') = raw Sql.UpdatedAt
  /\ Sql.tags r' = raw Sql.Tags.
Proof.
  unfold Sql.check.
  destruct (raw Sql.Title), (raw Sql.Body), (raw Sql.Stage),
    (raw Sql.CreatedAt), (raw Sql.UpdatedAt); try discriminate.
  destruct (Sql.stage_ok _); [|discriminate].
  intros [= <-]. cbn. auto.
Qed.

(** The row an UPDATE of [updateIdea] writes keeps its id and its
    [created_at]. *)
Lemma updated_row_keeps (now : jsstring) (updates : list entry) (r r' : Row) :
  Sql.check (fold_left Sql.assign (assignments now updates) (Sql.raw_of r))
  = Some r' ->
  Sql.id r' = Sql.id r /\ Sql.created_at r' = Sql.created_at r.
Proof.
  intros H. apply check_keeps in H. destruct H as (Hi & Hc & _).
  rewrite fold_assign_other in Hi, Hc
    by (intros a Ha; now apply (assignments_spare now updates)).
  cbn in Hi, Hc. split; congruence.
Qed.

Lemma update_rows_keeps (now target : jsstring) (updates : list entry) :
  forall l l',
  Sql.update_rows (assignments now updates) target l = Some l' ->
  map Sql.id l' = map Sql.id l
  /\ map Sql.created_at l' = map Sql.created_at l.
Proof.
  induction l as [|r l IH]; intros l'; cbn [Sql.update_rows].
  - intros [= <-]. auto.
  - destruct (Sql.has_id target r) eqn:Hm.
    + destruct (Sql.check _) as [r'|] eqn:Hc; [|discriminate].
      destruct (Sql.update_rows _ target l) as [l''|]; [|discriminate].
      intros [= <-]. destruct (IH l'' eq_refl) as [I1 I2].
      destruct (updated_row_keeps _ _ _ _ Hc) as [R1 R2].
      cbn [map]. split; congruence.
    + destruct (Sql.update_rows _ target l) as [l''|]; [|discriminate].
      intros [= <-]. destruct (IH l'' eq_refl) as [I1 I2].
      cbn [map]. split; congruence.
Qed.

Lemma update_keeps (now target : jsstring) (updates : list entry)
      (d d' : Database) :
  Sql.update (assignments now updates) target d = Some d' ->
  map Sql.id (Sql.rows d') = map Sql.id (Sql.rows d)
  /\ map Sql.created_at (Sql.rows d') = map Sql.created_at (Sql.rows d).
Proof.
  unfold Sql.update.
  destruct (Sql.update_rows _ target (Sql.rows d)) as [l|] eqn:E;
    [|discriminate].
  rewrite assignments_no_id. cbn [andb]. intros [= <-].
  now apply (update_rows_keeps now target updates).
Qed.

Lemma set_clause_guard (now : jsstring) (updates : list entry) :
  set_clause now (filter passes_guard updates) = set_clause now updates.
Proof.
  unfold set_clause. f_equal.
  induction updates as [|e updates IH]; [reflexivity|].
  cbn [filter flat_map].
  destruct (passes_guard e) eqn:E; [|exact IH].
  cbn [flat_map]. rewrite E. now rewrite IH.
Qed.


(** *** An id that no record has *)

Lemma update_rows_absent (set : list (Column * cell)) (target : jsstring) :
  forall l, existsb (Sql.has_id target) l = false ->
  Sql.update_rows set target l = Some l.
Proof.
  induction l as [|r l IH]; [reflexivity|]. cbn [existsb Sql.update_rows].
  intros H. apply orb_false_iff in H. destruct H as [Hr Hl].
  now rewrite Hr, IH.
Qed.

Lemma with_rows_same (d : Database) : Sql.with_rows d (Sql.rows d) = d.
Proof. destruct d; reflexivity. Qed.

Lemma update_absent (set : list (Column * cell)) (target : jsstring)
      (d : Database) :
  existsb (Sql.has_id target) (Sql.rows d) = false ->
  Sql.update set target d = Some d.
Proof.
  intros H. unfold Sql.update. rewrite update_rows_absent by assumption.
  rewrite H, andb_false_r. cbn [andb]. now rewrite with_rows_same.
Qed.

Lemma delete_absent (target : jsstring) (d : Database) :
  existsb (Sql.has_id target) (Sql.rows d) = false ->
  Sql.delete target d = d.
Proof.
  intros H. unfold Sql.delete. rewrite filter_all; [apply with_rows_same|].
  apply Forall_forall. intros r Hr.
  destruct (Sql.has_id target r) eqn:E; [|reflexivity].
  assert (existsb (Sql.has_id target) (Sql.rows d) = true)
    by (apply existsb_exists; eauto).
  congruence.
Qed.

Lemma with_db_same (w : World) : with_db w (db w) = w.
Proof. destruct w; reflexivity. Qed.

(** C2, as the code has it.  For an id that no record has, [updateIdea]
    and [deleteIdea] do not report not-found.  They leave the collection as
    it is and go on to [save]: [setItem] is called once with the image of
    the unchanged collection, and the call returns [true] (or throws the
    error of [setItem]). *)
Theorem absent_id_saves_and_returns_true (now id : jsstring)
        (updates : list entry) (w : World) :
  existsb (Sql.has_id id) (Sql.rows (db w)) = false ->
  let after :=
    if fits' (db w) then (Returns true, saved' w)
    else (Throws QuotaExceededError, refused w) in
  updateIdea' now id updates w = after /\ deleteIdea' id w = after.
Proof.
  intros H after. subst after. split.
  - rewrite updateIdea_spec, prepare_set_clause, update_absent by assumption.
    now rewrite with_db_same.
  - rewrite deleteIdea_spec, delete_absent by assumption.
    now rewrite with_db_same.
Qed.

(** *** Validation lives in the form *)

Lemma truthy_false (s : jsstring) : JS.truthy s = false <-> s = [].
Proof. destruct s; split; (reflexivity || discriminate). Qed.

(** C1, as the code has it.  [createIdea] checks nothing; the check is
    [handleFormSubmit]'s: when the title or the body is empty after
    trimming, it shows the field errors and calls neither [createIdea] nor
    [updateIdea], so the collection, the persisted entry and the count of
    [setItem] calls are what they were. *)
Theorem empty_title_or_body_stops_at_the_form (random16 : nat -> N)
        (now : jsstring) (f : Form) (w : World) :
  JS.trim (idea_title f) = [] \/ JS.trim (idea_body f) = [] ->
  handleFormSubmit' random16 now f w
  = (FieldErrors (negb (JS.truthy (JS.trim (idea_title f))))
                 (negb (JS.truthy (JS.trim (idea_body f)))), w).
Proof.
  intros H. unfold handleFormSubmit.
  destruct H as [H|H]; rewrite H; cbn [JS.truthy negb orb];
    [reflexivity|].
  now rewrite orb_true_r.
Qed.

(** *** What a returning call did to the table *)

Lemma createIdea_returns random16 now title body tags (w w' : World)
      (i : jsstring) :
  createIdea' random16 now title body tags w = (Returns i, w') ->
  i = generateUUID random16
  /\ existsb (Sql.has_id i) (Sql.rows (db w)) = false
  /\ db w' = Sql.with_rows (db w)
       (Sql.rows (db w)
        ++ [inserted_row i title body (JSON.stringify_strings tags) now]).
Proof.
  rewrite createIdea_spec. unfold Sql.insert. cbn [Sql.id inserted_row].
  destruct (existsb _ (Sql.rows (db w))) eqn:E; [discriminate|].
  destruct (fits' _); [|discriminate].
  intros [= <- <-]. auto.
Qed.

Lemma updateIdea_returns now id updates (w w' : World) (b : bool) :
  updateIdea' now id updates w = (Returns b, w') ->
  Sql.update (assignments now updates) id (db w) = Some (db w').
Proof.
  rewrite updateIdea_spec, prepare_set_clause.
  destruct (Sql.update _ id (db w)) as [d|]; [|discriminate].
  destruct (fits' d); [|discriminate].
  intros [= _ <-]. reflexivity.
Qed.

Lemma fold_assign_updated_at (now : jsstring) (updates : list entry)
      (raw : Sql.raw_row) :
  fold_left Sql.assign (assignments now updates) raw Sql.UpdatedAt = Some now.
Proof. unfold assignments. rewrite fold_left_app. reflexivity. Qed.

Lemma has_id_inserted (i j title body tagsJson now : jsstring) :
  Sql.has_id j (inserted_row i title body tagsJson now) = JS.eqb i j.
Proof. reflexivity. Qed.

Lemma eqb_sym (a b : jsstring) : JS.eqb a b = JS.eqb b a.
Proof.
  destruct (jsstring_eqb_spec a b) as [->|H].
  - now rewrite jsstring_eqb_refl.
  - symmetry. apply jsstring_eqb_neq. congruence.
Qed.

(** C7, as the code has it.  [getAllIdeas] returns every record, most
    recently updated first, records with the same [updated_at] in the order
    of their insertion, and leaves the world (so the persisted entry and
    the count of [setItem] calls) as it was.  When A, B and C are created
    in that order in an empty store and A is then updated, the listing is
    A, C, B provided the clock value read for C is later than the one read
    for B and the one read for the update is not earlier than C's. *)
Theorem list_is_newest_first_and_stable :
  (forall w : World,
     exists listed,
       getAllIdeas w = (Returns (map (idea_of_row (db w)) listed), w)
       /\ Permutation listed (Sql.rows (db w))
       /\ StronglySorted Sql.not_older listed
       /\ forall t, filter (Sql.updated_at_is t) listed
                    = filter (Sql.updated_at_is t) (Sql.rows (db w)))
  /\ (forall (w0 w1 w2 w3 w4 : World) (rA rB rC : nat -> N)
             (tA tB tC tU a b c : jsstring)
             (titleA bodyA titleB bodyB titleC bodyC : jsstring)
             (tagsA tagsB tagsC : list jsstring) (updates : list entry),
        Sql.rows (db w0) = [] ->
        createIdea' rA tA titleA bodyA tagsA w0 = (Returns a, w1) ->
        createIdea' rB tB titleB bodyB tagsB w1 = (Returns b, w2) ->
        createIdea' rC tC titleC bodyC tagsC w2 = (Returns c, w3) ->
        updateIdea' tU a updates w3 = (Returns true, w4) ->
        JS.ltb tB tC = true -> JS.leb tC tU = true ->
        exists ideas,
          getAllIdeas w4 = (Returns ideas, w4)
          /\ map (get_prop (str "id")) ideas
             = [Some (JStr a); Some (JStr c); Some (JStr b)]).
Proof.
  split.
  - intros w. exists (Sql.select_all (db w)).
    split; [reflexivity|]. split; [apply order_perm|].
    split; [apply order_sorted|]. intros t. apply order_stable.
  - intros w0 w1 w2 w3 w4 rA rB rC tA tB tC tU a b c
           titleA bodyA titleB bodyB titleC bodyC tagsA tagsB tagsC updates
           H0 HA HB HC HU LBC LCU.
    apply createIdea_returns in HA. destruct HA as (_ & _ & D1).
    apply createIdea_returns in HB. destruct HB as (_ & FB & D2).
    apply createIdea_returns in HC. destruct HC as (_ & FC & D3).
    apply updateIdea_returns in HU.
    rewrite D1, H0 in FB. cbn [Sql.rows Sql.with_rows app existsb] in FB.
    rewrite has_id_inserted, orb_false_r in FB.
    rewrite D2, D1, H0 in FC. cbn [Sql.rows Sql.with_rows app existsb] in FC.
    rewrite !has_id_inserted, orb_false_r in FC.
    apply orb_false_iff in FC. destruct FC as [FAC FBC].
    set (A := inserted_row a titleA bodyA (JSON.stringify_strings tagsA) tA)
      in *.
    set (B := inserted_row b titleB bodyB (JSON.stringify_strings tagsB) tB)
      in *.
    set (C := inserted_row c titleC bodyC (JSON.stringify_strings tagsC) tC)
      in *.
    assert (R3 : Sql.rows (db w3) = [A; B; C]).
    { rewrite D3, D2, D1, H0. reflexivity. }
    unfold Sql.update in HU. rewrite R3, assignments_no_id in HU.
    cbn [andb Sql.update_rows] in HU.
    assert (EA : Sql.has_id a A = true) by apply jsstring_eqb_refl.
    assert (EB : Sql.has_id a B = false)
      by (subst B; now rewrite has_id_inserted, eqb_sym).
    assert (EC : Sql.has_id a C = false)
      by (subst C; now rewrite has_id_inserted, eqb_sym).
    rewrite EA, EB, EC in HU.
    destruct (Sql.check _) as [A'|] eqn:HA'; [|discriminate].
    injection HU as HU.
    apply check_keeps in HA'. destruct HA' as (IA & _ & UA & _).
    rewrite fold_assign_other in IA
      by (intros x Hx; now apply (assignments_spare tU updates)).
    rewrite fold_assign_updated_at in UA. injection UA as UA.
    eexists. split; [reflexivity|].
    unfold Sql.select_all. rewrite <- HU.
    cbn [Sql.rows Sql.with_rows Sql.order_by_updated_at_desc fold_right
         Sql.insert_desc].
    replace (JS.leb (Sql.updated_at C) (Sql.updated_at B)) with false
      by (symmetry; now apply ltb_leb_false).
    cbn [Sql.insert_desc]. rewrite UA.
    replace (JS.leb (Sql.updated_at C) tU) with true
      by (symmetry; exact LCU).
    cbn [map]. change (str "id") with (Sql.column_name Sql.Id).
    rewrite !idea_column by discriminate.
    cbn [Sql.raw_of]. rewrite IA. reflexivity.
Qed.

(** *** Tags are stored as given *)

Lemma find_appended (i : jsstring) (r : Row) (l : list Row) :
  existsb (Sql.has_id i) l = false -> Sql.has_id i r = true ->
  find (Sql.has_id i) (l ++ [r]) = Some r.
Proof.
  intros Hl Hr. induction l as [|x l IH]; cbn [app find].
  - now rewrite Hr.
  - cbn [existsb] in Hl. apply orb_false_iff in Hl. destruct Hl as [Hx Hl].
    rewrite Hx. now apply IH.
Qed.

Lemma fold_assign_tags (now : jsstring) (updates : list entry)
      (tags : list jsstring) (raw : Sql.raw_row) :
  fold_left Sql.assign (assignments now (updates ++ [TagList tags])) raw
            Sql.Tags
  = Some (JSON.stringify_strings tags).
Proof.
  unfold assignments. rewrite filter_app, map_app, !fold_left_app.
  reflexivity.
Qed.

Lemma has_id_same_id (i : jsstring) (r r' : Row) :
  Sql.id r' = Sql.id r -> Sql.has_id i r' = Sql.has_id i r.
Proof. unfold Sql.has_id. now intros ->. Qed.

Lemma found_after_update_has_tags (now id : jsstring) (updates : list entry)
      (tags : list jsstring) (r' : Row) :
  forall l l',
  Sql.update_rows (assignments now (updates ++ [TagList tags])) id l = Some l' ->
  find (Sql.has_id id) l' = Some r' ->
  Sql.tags r' = Some (JSON.stringify_strings tags).
Proof.
  induction l as [|r l IH]; intros l'; cbn [Sql.update_rows].
  - intros [= <-]. discriminate.
  - destruct (Sql.has_id id r) eqn:Hm.
    + destruct (Sql.check _) as [r1|] eqn:Hc; [|discriminate].
      destruct (Sql.update_rows _ id l) as [l''|]; [|discriminate].
      intros [= <-]. cbn [find].
      destruct (updated_row_keeps _ _ _ _ Hc) as [Hi _].
      rewrite (has_id_same_id id r r1 Hi), Hm. intros [= <-].
      apply check_keeps in Hc. destruct Hc as (_ & _ & _ & Ht).
      now rewrite Ht, fold_assign_tags.
    + destruct (Sql.update_rows _ id l) as [l''|] eqn:El; [|discriminate].
      intros [= <-]. cbn [find]. rewrite Hm. now apply IH.
Qed.

Lemma addTag_ok (tag : jsstring) (l : list jsstring) :
  tags_ok l -> tags_ok (addTag tag l).
Proof.
  intros [Hnd Hne]. unfold addTag.
  destruct (JS.truthy (JS.trim tag)) eqn:Et; cbn [negb]; [|now split].
  destruct (JS.includes l (JS.trim tag)) eqn:Ei; [now split|].
  assert (Hnot : ~ In (JS.trim tag) l).
  { intros H. apply includes_In in H. congruence. }
  split.
  - apply NoDup_rev in Hnd. rewrite <- (rev_involutive (l ++ _)).
    apply NoDup_rev. rewrite rev_app_distr. cbn [rev app].
    constructor; [|exact Hnd]. now rewrite <- in_rev.
  - rewrite in_app_iff. intros [H|[H|[]]]; [contradiction|].
    rewrite H in Et. discriminate.
Qed.


(** *** Ids in the collection *)

Lemma has_id_iff (i : jsstring) (r : Row) :
  Sql.has_id i r = true <-> Sql.id r = Some i.
Proof.
  unfold Sql.has_id. destruct (Sql.id r) as [j|]; [|split; discriminate].
  rewrite jsstring_eqb_eq. split; congruence.
Qed.

Lemma absent_not_in (i : jsstring) (l : list Row) :
  existsb (Sql.has_id i) l = false -> ~ In (Some i) (map Sql.id l).
Proof.
  intros H Hin. apply in_map_iff in Hin. destruct Hin as (r & Hr & Hin).
  assert (existsb (Sql.has_id i) l = true).
  { apply existsb_exists. exists r. split; [assumption|].
    now apply has_id_iff. }
  congruence.
Qed.

Lemma kept_rows_distinct (keep : Row -> bool) (table : list Row) :
  NoDup (map Sql.id table) -> NoDup (map Sql.id (filter keep table)).
Proof.
  intros Hnd. induction table as [|r table IH]; [exact Hnd|].
  cbn [map] in Hnd. inversion_clear Hnd as [|? ? Hr Htable].
  cbn [filter]. destruct (keep r); [|now apply IH].
  cbn [map]. constructor; [|now apply IH].
  intros Hin. apply Hr. apply in_map_iff in Hin.
  destruct Hin as (r2 & Hid & Hin). apply filter_In in Hin.
  destruct Hin as [Hin _]. apply in_map_iff. exists r2. now split.
Qed.

Lemma insert_distinct (r : Row) (i : jsstring) (d d' : Database) :
  Sql.id r = Some i -> Sql.insert r d = Some d' ->
  distinct_ids d -> distinct_ids d'.
Proof.
  unfold Sql.insert. intros Hi. rewrite Hi.
  destruct (existsb _ (Sql.rows d)) eqn:E; [discriminate|].
  intros [= <-] [Hnd Hnn]. unfold distinct_ids.
  cbn [Sql.rows Sql.with_rows]. rewrite map_app. cbn [map]. rewrite Hi.
  split.
  - apply NoDup_rev in Hnd. rewrite <- (rev_involutive (_ ++ _)).
    apply NoDup_rev. rewrite rev_app_distr. cbn [rev app].
    constructor; [|exact Hnd]. rewrite <- in_rev. now apply absent_not_in.
  - rewrite in_app_iff. intros [H|[H|[]]]; [contradiction|discriminate].
Qed.

Lemma delete_distinct (i : jsstring) (d : Database) :
  distinct_ids d -> distinct_ids (Sql.delete i d).
Proof.
  intros [Hnd Hnn]. unfold distinct_ids, Sql.delete.
  cbn [Sql.rows Sql.with_rows]. split.
  - now apply kept_rows_distinct.
  - intros H. apply Hnn. apply in_map_iff in H.
    destruct H as (r & Hr & Hin). apply filter_In in Hin.
    destruct Hin as [Hin _]. apply in_map_iff. exists r. now split.
Qed.

Lemma apply_distinct (o : op) (w : World) :
  distinct_ids (db w) -> distinct_ids (db (snd (apply' o w))).
Proof.
  intros H.
  destruct o as [random16 now title body tags|now id updates|id];
    unfold apply, bind.
  - rewrite createIdea_spec.
    destruct (Sql.insert _ (db w)) as [d|] eqn:E; [|exact H].
    eapply insert_distinct in E; [|reflexivity|exact H].
    destruct (fits' d); exact E.
  - rewrite updateIdea_spec, prepare_set_clause.
    destruct (Sql.update _ id (db w)) as [d|] eqn:E; [|exact H].
    apply update_keeps in E. destruct E as [E _].
    assert (distinct_ids d) by (unfold distinct_ids; now rewrite E).
    destruct (fits' d); assumption.
  - rewrite deleteIdea_spec.
    pose proof (delete_distinct id (db w) H) as E.
    destruct (fits' _); exact E.
Qed.

Lemma run_distinct (ops : list op) :
  forall w, distinct_ids (db w) -> distinct_ids (db (run' ops w)).
Proof.
  induction ops as [|o ops IH]; intros w H; [exact H|].
  unfold run. cbn [fold_left]. apply IH. now apply apply_distinct.
Qed.

Lemma present_found (i : jsstring) (l : list Row) :
  In (Some i) (map Sql.id l) -> existsb (Sql.has_id i) l = true.
Proof.
  intros H. apply in_map_iff in H. destruct H as (r & Hr & Hin).
  apply existsb_exists. exists r. split; [exact Hin|]. now apply has_id_iff.
Qed.


End StoreProperties.

(* ------------------------------------------------------------------ *)
(** ** Concrete cases *)

Lemma first_init : browser_init None 0 = Ready started_world.
Proof. vm_compute. reflexivity. Qed.

(** C1 fails on the code: [createIdea] with an empty title, and with an
    empty body, returns an id, adds the record and calls [setItem]. *)
Lemma createIdea_accepts_empty_title_and_empty_body :
  (let r := browser_createIdea counting_random noon (str "") (str "body") []
                               started_world in
   fst r = Returns counting_id
   /\ map Sql.title (Sql.rows (db (snd r))) = [str ""]
   /\ Sql.rows (db started_world) = []
   /\ setItem_calls (snd r) = S (setItem_calls started_world))
  /\ (let r := browser_createIdea counting_random noon (str "title") (str "")
                                  [] started_world in
      fst r = Returns counting_id
      /\ map Sql.body (Sql.rows (db (snd r))) = [str ""]
      /\ setItem_calls (snd r) = S (setItem_calls started_world)).
Proof. vm_compute. repeat split; reflexivity. Qed.

Lemma empty_title_or_body_stops_at_the_form_witness :
  JS.trim (idea_title blank_title_form) = []
  /\ browser_handleFormSubmit counting_random noon blank_title_form
                              started_world
     = (FieldErrors
          (negb (JS.truthy (JS.trim (idea_title blank_title_form))))
          (negb (JS.truthy (JS.trim (idea_body blank_title_form)))),
        started_world).
Proof.
  split; [reflexivity|].
  apply (empty_title_or_body_stops_at_the_form
           Image.quota Image.export counting_random noon blank_title_form
           started_world).
  left. reflexivity.
Defined.

(** C2 fails on the code: for an id that no record has, [updateIdea] and
    [deleteIdea] return [true], the value they return on success, and call
    [setItem]. *)
Lemma unknown_id_returns_true_and_writes :
  existsb (Sql.has_id (str "nonexistent-id")) (Sql.rows (db started_world))
  = false
  /\ (let r := browser_updateIdea noon (str "nonexistent-id")
                                  [Field Sql.Title (Some (str "x"))]
                                  started_world in
      fst r = Returns true
      /\ setItem_calls (snd r) = S (setItem_calls started_world))
  /\ (let r := browser_deleteIdea (str "nonexistent-id") started_world in
      fst r = Returns true
      /\ setItem_calls (snd r) = S (setItem_calls started_world)).
Proof. vm_compute. repeat split; reflexivity. Qed.

Lemma absent_id_saves_and_returns_true_witness :
  existsb (Sql.has_id (str "nonexistent-id")) (Sql.rows (db started_world))
  = false
  /\ (browser_updateIdea noon (str "nonexistent-id")
                         [Field Sql.Title (Some (str "x"))] started_world
      = (if fits Image.quota Image.export (db started_world)
         then (Returns true, saved Image.export started_world)
         else (Throws QuotaExceededError, refused started_world))
      /\ browser_deleteIdea (str "nonexistent-id") started_world
         = (if fits Image.quota Image.export (db started_world)
            then (Returns true, saved Image.export started_world)
            else (Throws QuotaExceededError, refused started_world))).
Proof.
  split; [reflexivity|].
  apply (absent_id_saves_and_returns_true
           Image.quota Image.export noon (str "nonexistent-id")
           [Field Sql.Title (Some (str "x"))] started_world).
  reflexivity.
Defined.



Lemma mutation_persists_collection_witness :
  let o := Create counting_random nine_am (str "Title1") (str "Body1")
                  [str "x"] in
  let w' := snd (browser_apply o started_world) in
  fst (browser_apply o started_world) = Returns tt
  /\ uint8ArrayToBase64 (Image.export (db w')) = localStorage w'
  /\ setItem_calls w' = S (setItem_calls started_world)
  /\ browser_init (localStorage w') (setItem_calls w') = Ready w'.
Proof.
  cbv zeta.
  assert (H : fst (browser_apply
                     (Create counting_random nine_am (str "Title1")
                             (str "Body1") [str "x"]) started_world)
              = Returns tt) by (vm_compute; reflexivity).
  split; [exact H|].
  exact (mutation_persists_collection
           Image.quota Image.export Image.open _ started_world
           image_open_export image_export_not_empty H).
Defined.


(** C6 fails on the code: the record that [exportToJSON] returns for an
    idea has ten properties, among them [stage], [essence], [insight] and
    [next_action]. *)
Lemma exported_record_has_ten_fields :
  let w := snd (browser_createIdea counting_random nine_am (str "Title1")
                                   (str "Body1") [str "x"] started_world) in
  exists o,
    fst (exportToJSON noon w)
    = Returns [(str "schema_version", JNum (str "1"));
               (str "exported_at", JStr noon);
               (str "ideas", JArr [JObj o])]
    /\ map fst o
       = map str ["id"; "title"; "body"; "stage"; "tags"; "essence";
                  "insight"; "next_action"; "created_at";
                  "updated_at"]%string
    /\ map fst o
       <> map str ["id"; "title"; "body"; "tags"; "created_at";
                   "updated_at"]%string.
Proof.
  vm_compute. eexists. split; [reflexivity|]. split; [reflexivity|].
  discriminate.
Qed.

(** C7 fails on the code: when the four calls read the same clock value,
    the listing after creating A, B, C and updating A is A, B, C. *)
Lemma same_clock_lists_in_insertion_order :
  let a := generateUUID (constant_random 1) in
  let b := generateUUID (constant_random 2) in
  let c := generateUUID (constant_random 3) in
  let r1 := browser_createIdea (constant_random 1) noon (str "A") (str "a")
                               [] started_world in
  let r2 := browser_createIdea (constant_random 2) noon (str "B") (str "b")
                               [] (snd r1) in
  let r3 := browser_createIdea (constant_random 3) noon (str "C") (str "c")
                               [] (snd r2) in
  let r4 := browser_updateIdea noon a [Field Sql.Title (Some (str "A2"))]
                               (snd r3) in
  (fst r1, fst r2, fst r3, fst r4)
  = (Returns a, Returns b, Returns c, Returns true)
  /\ (exists ideas,
        fst (getAllIdeas (snd r4)) = Returns ideas
        /\ map (get_prop (str "id")) ideas
           = [Some (JStr a); Some (JStr b); Some (JStr c)])
  /\ [a; b; c] <> [a; c; b].
Proof.
  cbv zeta. split; [vm_compute; reflexivity|]. split.
  - vm_compute. eexists. split; reflexivity.
  - vm_compute. discriminate.
Qed.

Lemma list_is_newest_first_and_stable_witness :
  exists ideas,
    getAllIdeas world_ABC_updated = (Returns ideas, world_ABC_updated)
    /\ map (get_prop (str "id")) ideas
       = [Some (JStr (generateUUID (constant_random 1)));
          Some (JStr (generateUUID (constant_random 3)));
          Some (JStr (generateUUID (constant_random 2)))].
Proof.
  apply (proj2 (list_is_newest_first_and_stable Image.quota Image.export)
               started_world world_A world_AB world_ABC world_ABC_updated
               (constant_random 1) (constant_random 2) (constant_random 3)
               nine_am ten_am eleven_am noon
               (generateUUID (constant_random 1))
               (generateUUID (constant_random 2))
               (generateUUID (constant_random 3))
               (str "A") (str "a") (str "B") (str "b") (str "C") (str "c")
               [] [] [] [Field Sql.Title (Some (str "A2"))]);
    vm_compute; reflexivity.
Defined.



Lemma unreadable_tags_read_as_empty_witness :
  let r := odd_row "x" (Some (str "[a, b")) in
  In r (Sql.rows (db odd_world))
  /\ unreadable (Sql.tags r)
  /\ get_prop (str "tags") (idea_of_row (db odd_world) r) = Some (JArr [])
  /\ getIdea (str "x") odd_world
     = (Returns (Some (idea_of_row (db odd_world) r)), odd_world).
Proof.
  cbv zeta.
  assert (Hin : In (odd_row "x" (Some (str "[a, b")))
                   (Sql.rows (db odd_world))) by (right; left; reflexivity).
  assert (Hun : unreadable (Sql.tags (odd_row "x" (Some (str "[a, b"))))).
  { right. eexists. split; [reflexivity|]. vm_compute. reflexivity. }
  destruct (unreadable_tags_read_as_empty odd_world _ (str "x") Hin Hun)
    as (H1 & _ & H3 & _).
  split; [exact Hin|]. split; [exact Hun|]. split; [exact H1|].
  apply H3. reflexivity.
Defined.
